(** * The HEC generator transport (generators/base/hec.go)

    A shallow embedding of the HTTP Event Collector backend of the
    gravwell generators: timestamp conversion, the tag table, the two
    wire encodings, the streaming upload worker and the construction of
    a connection, followed by the properties proved about them.

    Go values are modelled as follows: [string] and [[]byte] are Rocq
    strings (sequences of 8-bit characters); [int64] and [int] are [Z]
    with the wrap-around written out where the code converts; [float64]
    is the kernel's binary64 [float]; an [error] is its text, [nil]
    being [None]; a map is a [gmap]. *)

From Stdlib Require Import ZArith Floats Uint63 Lia Ascii.
From stdpp Require Import gmap strings list pretty.

Local Open Scope Z_scope.

(** ** Errors *)

Definition error := string.

(** ** Timestamps (entry.Timestamp: two int64 fields) *)

Record Timestamp := { Sec : Z; Nsec : Z }.

Definition int64_min : Z := - 2 ^ 63.
Definition int64_max : Z := 2 ^ 63 - 1.

Definition is_int64 (z : Z) : Prop := int64_min <= z <= int64_max.

(** Two's complement wrap-around of int64 arithmetic. *)
Definition wrap64 (z : Z) : Z := (z + 2 ^ 63) mod 2 ^ 64 - 2 ^ 63.

(** The conversion [float64(x)] of an int64: round to nearest, ties to
    even; [of_uint63] does this on magnitudes below 2^63. *)
Definition float64_of_int64 (x : Z) : float :=
  if x <? 0 then
    if x =? int64_min then (- 0x1p63)%float
    else (- PrimFloat.of_uint63 (Uint63.of_Z (- x)))%float
  else PrimFloat.of_uint63 (Uint63.of_Z x).

Definition secondsPerMinute : Z := 60.
Definition secondsPerHour : Z := 60 * 60.
Definition secondsPerDay : Z := 24 * secondsPerHour.
Definition secondsPerWeek : Z := 7 * secondsPerDay.
Definition unixToInternal : Z :=
  (1969 * 365 + 1969 / 4 - 1969 / 100 + 1969 / 400) * secondsPerDay.

Definition timeFloat (ts : Timestamp) : float :=
  if Sec ts <? unixToInternal then 0%float
  else
    let r := float64_of_int64 (wrap64 (Sec ts - unixToInternal)) in
    (r + float64_of_int64 (Nsec ts) / float64_of_int64 1000000000)%float.

(** What the timestamp denotes: [Sec] counts seconds from January 1,
    year 1 and [Nsec] is the nanosecond remainder. *)
Definition normalized (ts : Timestamp) : Prop :=
  is_int64 (Sec ts) /\ 0 <= Nsec ts < 1000000000.

(** Nanoseconds elapsed since the Unix epoch (negative before it). *)
Definition unixNano (ts : Timestamp) : Z :=
  (Sec ts - unixToInternal) * 1000000000 + Nsec ts.

Definition beforeEpoch (ts : Timestamp) : Prop := unixNano ts < 0.

Definition secondsSinceEpoch (ts : Timestamp) : Z := Sec ts - unixToInternal.

(** ** Bytes and text helpers *)

Definition byteval (c : ascii) : N := N_of_ascii c.

Definition nl : string := String "010"%char "".

Fixpoint take_bytes (n : nat) (s : string) : string :=
  match n, s with
  | S n', String c s' => String c (take_bytes n' s')
  | _, _ => ""
  end.

Fixpoint drop_bytes (n : nat) (s : string) : string :=
  match n, s with
  | S n', String _ s' => drop_bytes n' s'
  | _, _ => s
  end.

(** Go's [src[lo:hi]] on a byte string. *)
Definition slice (lo hi : nat) (s : string) : string :=
  take_bytes (hi - lo) (drop_bytes lo s).

(** [hay] contains [needle] as a contiguous run of bytes. *)
Definition contains (needle hay : string) : Prop :=
  ∃ pre post, hay = pre +:+ needle +:+ post.

Definition hexdigit (n : N) : ascii :=
  match String.get (N.to_nat n) "0123456789abcdef" with
  | Some c => c
  | None => "0"%char
  end.

(** ** encoding/json (Go standard library), as far as the encoder of
    [hecent] uses it: the string encoder with HTML escaping, and the
    validating compactor applied to a [json.RawMessage]. *)

Module json.

(** utf8.DecodeRune, reduced to what the string encoder asks of it: the
    number of bytes of the well-formed encoding at the head of [s], or
    [0] when the head is not one (RuneError of width 1). *)
Definition in_range (lo hi : N) (c : ascii) : bool :=
  ((lo <=? byteval c) && (byteval c <=? hi))%N.

Definition rune_size (s : string) : nat :=
  match s with
  | String c0 (String c1 r) =>
      let b0 := byteval c0 in
      if in_range 0xC2 0xDF c0 then
        if in_range 0x80 0xBF c1 then 2%nat else 0%nat
      else
        let second :=
          if (b0 =? 0xE0)%N then in_range 0xA0 0xBF c1
          else if (b0 =? 0xED)%N then in_range 0x80 0x9F c1
          else if (b0 =? 0xF0)%N then in_range 0x90 0xBF c1
          else if (b0 =? 0xF4)%N then in_range 0x80 0x8F c1
          else in_range 0x80 0xBF c1 in
        if in_range 0xE0 0xEF c0 then
          match r with
          | String c2 _ =>
              if second && in_range 0x80 0xBF c2 then 3%nat else 0%nat
          | _ => 0%nat
          end
        else if in_range 0xF0 0xF4 c0 then
          match r with
          | String c2 (String c3 _) =>
              if second && in_range 0x80 0xBF c2 && in_range 0x80 0xBF c3
              then 4%nat else 0%nat
          | _ => 0%nat
          end
        else 0%nat
  | _ => 0%nat
  end.

(** htmlSafeSet: the ASCII bytes copied unescaped. *)
Definition htmlSafe (c : ascii) : bool :=
  let b := byteval c in
  ((0x20 <=? b) && (b <? 0x80) &&
   negb ((b =? 0x22) || (b =? 0x26) || (b =? 0x3C) || (b =? 0x3E) || (b =? 0x5C)))%N.

Definition escape_u00 (c : ascii) : string :=
  String "\"%char (String "u"%char (String "0"%char (String "0"%char
    (String (hexdigit (N.shiftr (byteval c) 4))
      (String (hexdigit (N.land (byteval c) 0xF)) ""))))).

Definition escape_ascii (c : ascii) : string :=
  let b := byteval c in
  if ((b =? 0x5C) || (b =? 0x22))%N then String "\"%char (String c "")
  else if (b =? 0x08)%N then "\b"
  else if (b =? 0x0C)%N then "\f"
  else if (b =? 0x0A)%N then "\n"
  else if (b =? 0x0D)%N then "\r"
  else if (b =? 0x09)%N then "\t"
  else escape_u00 c.

(** The body of [appendString]'s loop. After a rune is decoded its
    continuation bytes are either copied as they are ([Copy]) or, for
    U+2028 and U+2029, dropped behind the escape ([Drop]). *)
Inductive carry := Scan | Copy (k : nat) | Drop (k : nat).

Fixpoint appendString_go (m : carry) (s : string) : string :=
  match s with
  | "" => ""
  | String c r =>
      match m with
      | Copy (S k) => String c (appendString_go (Copy k) r)
      | Drop (S k) => appendString_go (Drop k) r
      | _ =>
          if (byteval c <? 0x80)%N then
            if htmlSafe c then String c (appendString_go Scan r)
            else escape_ascii c +:+ appendString_go Scan r
          else
            match rune_size s with
            | O => String "\"%char "ufffd" +:+ appendString_go Scan r
            | S k =>
                match r with
                | String c1 (String c2 _) =>
                    if ((byteval c =? 0xE2) && (byteval c1 =? 0x80) &&
                        ((byteval c2 =? 0xA8) || (byteval c2 =? 0xA9)))%N
                    then "\u202" +:+ String (hexdigit (N.land (byteval c2) 0xF)) ""
                         +:+ appendString_go (Drop 2) r
                    else String c (appendString_go (Copy k) r)
                | _ => String c (appendString_go (Copy k) r)
                end
            end
      end
  end.

(** The encoding of a Go string as a JSON string (escapeHTML on, as
    [json.Marshal] and a fresh [json.Encoder] have it). *)
Definition appendString (s : string) : string :=
  String "034"%char (appendString_go Scan s) +:+ String "034"%char "".

(** *** The scanner (scanner.go): one transition per input byte. *)

Inductive scanCode :=
  | scanContinue | scanBeginLiteral | scanBeginObject | scanObjectKey
  | scanObjectValue | scanEndObject | scanBeginArray | scanArrayValue
  | scanEndArray | scanSkipSpace | scanEnd | scanError.

Inductive parseState := parseObjectKey | parseObjectValue | parseArrayValue.

Inductive stepFn :=
  | stateBeginValueOrEmpty | stateBeginValue | stateBeginStringOrEmpty
  | stateBeginString | stateEndValue | stateEndTop
  | stateInString | stateInStringEsc | stateInStringEscU
  | stateInStringEscU1 | stateInStringEscU12 | stateInStringEscU123
  | stateNeg | state1 | state0 | stateDot | stateDot0
  | stateE | stateESign | stateE0
  | stateT | stateTr | stateTru
  | stateF | stateFa | stateFal | stateFals
  | stateN | stateNu | stateNul
  | stateError.

(** [parseStack] has the innermost state first; [err] records that
    [scanner.err] is set. *)
Record scanner := {
  step : stepFn;
  parseStack : list parseState;
  err : bool;
  endTop : bool
}.

Definition newScanner : scanner :=
  {| step := stateBeginValue; parseStack := []; err := false; endTop := false |}.

Definition maxNestingDepth : Z := 10000.

Definition set_step (f : stepFn) (s : scanner) : scanner :=
  {| step := f; parseStack := parseStack s; err := err s; endTop := endTop s |}.

Definition set_stack (l : list parseState) (s : scanner) : scanner :=
  {| step := step s; parseStack := l; err := err s; endTop := endTop s |}.

Definition scan_error (s : scanner) : scanCode * scanner :=
  (scanError,
   {| step := stateError; parseStack := parseStack s; err := true; endTop := endTop s |}).

Definition pushParseState (s : scanner) (new : parseState) (ok : scanCode)
  : scanCode * scanner :=
  let s' := set_stack (new :: parseStack s) s in
  if Z.of_nat (length (parseStack s')) <=? maxNestingDepth then (ok, s')
  else scan_error s'.

Definition popParseState (s : scanner) : scanner :=
  match parseStack s with
  | _ :: [] | [] =>
      {| step := stateEndTop; parseStack := []; err := err s; endTop := true |}
  | _ :: rest => set_step stateEndValue (set_stack rest s)
  end.

Definition isSpace (c : ascii) : bool :=
  let b := byteval c in
  ((b =? 0x20) || (b =? 0x09) || (b =? 0x0D) || (b =? 0x0A))%N.

Definition isDigit (c : ascii) : bool := in_range 0x30 0x39 c.
Definition isDigit19 (c : ascii) : bool := in_range 0x31 0x39 c.
Definition isHex (c : ascii) : bool :=
  in_range 0x30 0x39 c || in_range 0x61 0x66 c || in_range 0x41 0x46 c.

Definition is_ch (ch : string) (c : ascii) : bool :=
  match ch with
  | String d "" => bool_decide (c = d)
  | _ => false
  end.

Definition do_stateEndTop (s : scanner) (c : ascii) : scanCode * scanner :=
  if isSpace c then (scanEnd, s) else (scanEnd, snd (scan_error s)).

Definition do_stateEndValue (s : scanner) (c : ascii) : scanCode * scanner :=
  match parseStack s with
  | [] =>
      do_stateEndTop
        {| step := stateEndTop; parseStack := []; err := err s; endTop := true |} c
  | ps :: rest =>
      if isSpace c then (scanSkipSpace, set_step stateEndValue s)
      else
        match ps with
        | parseObjectKey =>
            if is_ch ":" c then
              (scanObjectKey,
               set_step stateBeginValue (set_stack (parseObjectValue :: rest) s))
            else scan_error s
        | parseObjectValue =>
            if is_ch "," c then
              (scanObjectValue,
               set_step stateBeginString (set_stack (parseObjectKey :: rest) s))
            else if is_ch "}" c then (scanEndObject, popParseState s)
            else scan_error s
        | parseArrayValue =>
            if is_ch "," c then (scanArrayValue, set_step stateBeginValue s)
            else if is_ch "]" c then (scanEndArray, popParseState s)
            else scan_error s
        end
  end.

Definition do_stateBeginValue (s : scanner) (c : ascii) : scanCode * scanner :=
  if isSpace c then (scanSkipSpace, s)
  else if is_ch "{" c then
    pushParseState (set_step stateBeginStringOrEmpty s) parseObjectKey scanBeginObject
  else if is_ch "[" c then
    pushParseState (set_step stateBeginValueOrEmpty s) parseArrayValue scanBeginArray
  else if (byteval c =? 0x22)%N then (scanBeginLiteral, set_step stateInString s)
  else if is_ch "-" c then (scanBeginLiteral, set_step stateNeg s)
  else if is_ch "0" c then (scanBeginLiteral, set_step state0 s)
  else if is_ch "t" c then (scanBeginLiteral, set_step stateT s)
  else if is_ch "f" c then (scanBeginLiteral, set_step stateF s)
  else if is_ch "n" c then (scanBeginLiteral, set_step stateN s)
  else if isDigit19 c then (scanBeginLiteral, set_step state1 s)
  else scan_error s.

Definition do_stateBeginValueOrEmpty (s : scanner) (c : ascii) : scanCode * scanner :=
  if isSpace c then (scanSkipSpace, s)
  else if is_ch "]" c then do_stateEndValue s c
  else do_stateBeginValue s c.

Definition do_stateBeginString (s : scanner) (c : ascii) : scanCode * scanner :=
  if isSpace c then (scanSkipSpace, s)
  else if (byteval c =? 0x22)%N then (scanBeginLiteral, set_step stateInString s)
  else scan_error s.

Definition do_stateBeginStringOrEmpty (s : scanner) (c : ascii) : scanCode * scanner :=
  if isSpace c then (scanSkipSpace, s)
  else if is_ch "}" c then
    do_stateEndValue (set_stack (parseObjectValue :: tail (parseStack s)) s) c
  else do_stateBeginString s c.

Definition do_state0 (s : scanner) (c : ascii) : scanCode * scanner :=
  if is_ch "." c then (scanContinue, set_step stateDot s)
  else if is_ch "e" c || is_ch "E" c then (scanContinue, set_step stateE s)
  else do_stateEndValue s c.

Definition do_stateESign (s : scanner) (c : ascii) : scanCode * scanner :=
  if isDigit c then (scanContinue, set_step stateE0 s) else scan_error s.

(** A literal's next byte: [want] moves on to [next]. *)
Definition expect (want : string) (next : stepFn) (s : scanner) (c : ascii)
  : scanCode * scanner :=
  if is_ch want c then (scanContinue, set_step next s) else scan_error s.

Definition scan_step (s : scanner) (c : ascii) : scanCode * scanner :=
  match step s with
  | stateBeginValueOrEmpty => do_stateBeginValueOrEmpty s c
  | stateBeginValue => do_stateBeginValue s c
  | stateBeginStringOrEmpty => do_stateBeginStringOrEmpty s c
  | stateBeginString => do_stateBeginString s c
  | stateEndValue => do_stateEndValue s c
  | stateEndTop => do_stateEndTop s c
  | stateInString =>
      if (byteval c =? 0x22)%N then (scanContinue, set_step stateEndValue s)
      else if (byteval c =? 0x5C)%N then (scanContinue, set_step stateInStringEsc s)
      else if (byteval c <? 0x20)%N then scan_error s
      else (scanContinue, s)
  | stateInStringEsc =>
      if is_ch "b" c || is_ch "f" c || is_ch "n" c || is_ch "r" c || is_ch "t" c
         || (byteval c =? 0x5C)%N || is_ch "/" c || (byteval c =? 0x22)%N
      then (scanContinue, set_step stateInString s)
      else if is_ch "u" c then (scanContinue, set_step stateInStringEscU s)
      else scan_error s
  | stateInStringEscU =>
      if isHex c then (scanContinue, set_step stateInStringEscU1 s) else scan_error s
  | stateInStringEscU1 =>
      if isHex c then (scanContinue, set_step stateInStringEscU12 s) else scan_error s
  | stateInStringEscU12 =>
      if isHex c then (scanContinue, set_step stateInStringEscU123 s) else scan_error s
  | stateInStringEscU123 =>
      if isHex c then (scanContinue, set_step stateInString s) else scan_error s
  | stateNeg =>
      if is_ch "0" c then (scanContinue, set_step state0 s)
      else if isDigit19 c then (scanContinue, set_step state1 s)
      else scan_error s
  | state1 =>
      if isDigit c then (scanContinue, set_step state1 s) else do_state0 s c
  | state0 => do_state0 s c
  | stateDot =>
      if isDigit c then (scanContinue, set_step stateDot0 s) else scan_error s
  | stateDot0 =>
      if isDigit c then (scanContinue, s)
      else if is_ch "e" c || is_ch "E" c then (scanContinue, set_step stateE s)
      else do_stateEndValue s c
  | stateE =>
      if is_ch "+" c || is_ch "-" c then (scanContinue, set_step stateESign s)
      else do_stateESign s c
  | stateESign => do_stateESign s c
  | stateE0 =>
      if isDigit c then (scanContinue, s) else do_stateEndValue s c
  | stateT => expect "r" stateTr s c
  | stateTr => expect "u" stateTru s c
  | stateTru => expect "e" stateEndValue s c
  | stateF => expect "a" stateFa s c
  | stateFa => expect "l" stateFal s c
  | stateFal => expect "s" stateFals s c
  | stateFals => expect "e" stateEndValue s c
  | stateN => expect "u" stateNu s c
  | stateNu => expect "l" stateNul s c
  | stateNul => expect "l" stateEndValue s c
  | stateError => (scanError, s)
  end.

(** [scanner.eof]: is the input read so far a complete value? *)
Definition scan_eof (s : scanner) : bool :=
  if err s then false
  else if endTop s then true
  else endTop (snd (scan_step s " "%char)).

(** Codes from [scanSkipSpace] on are the ones the compactor drops. *)
Definition skips (v : scanCode) : bool :=
  match v with
  | scanSkipSpace | scanEnd | scanError => true
  | _ => false
  end.

(** *** The compactor (indent.go, [appendCompact] with escaping on):
    drops insignificant space, escapes [<], [>], [&], U+2028 and U+2029,
    and fails unless the input is exactly one JSON value. [src] is the
    whole input, [rest] what is left of it from index [i] on. *)

Definition flush (src : string) (start i : nat) : string :=
  if (start <? i)%nat then slice start i src else "".

Definition isHTML (c : ascii) : bool := is_ch "<" c || is_ch ">" c || is_ch "&" c.

Definition lineSep (rest : string) : option ascii :=
  match rest with
  | String c (String c1 (String c2 _)) =>
      if ((byteval c =? 0xE2) && (byteval c1 =? 0x80) &&
          (N.land (byteval c2) 0xFE =? 0xA8))%N
      then Some c2 else None
  | _ => None
  end.

Fixpoint compact_go (src rest : string) (i start : nat) (scan : scanner)
  (dst : string) : scanner * nat * string :=
  match rest with
  | "" => (scan, start, dst)
  | String c rest' =>
      let '(dst1, start1) :=
        if isHTML c then (dst +:+ flush src start i +:+ escape_u00 c, S i)
        else (dst, start) in
      let '(dst2, start2) :=
        match lineSep rest with
        | Some c2 =>
            (dst1 +:+ flush src start1 i +:+ "\u202"
               +:+ String (hexdigit (N.land (byteval c2) 0xF)) "",
             (i + 3)%nat)
        | None => (dst1, start1)
        end in
      let '(v, scan') := scan_step scan c in
      if skips v then
        match v with
        | scanError => (scan', start2, dst2)
        | _ => compact_go src rest' (S i) (S i) scan' (dst2 +:+ flush src start2 i)
        end
      else compact_go src rest' (S i) start2 scan' dst2
  end.

Definition appendCompact (src : string) : option string :=
  let '(scan, start, dst) := compact_go src src 0 0 newScanner "" in
  if scan_eof scan then Some (dst +:+ flush src start (String.length src))
  else None.

(** Is [src] exactly one JSON value ([json.Valid])? *)
Definition Valid (src : string) : bool :=
  match appendCompact src with Some _ => true | None => false end.

End json.

(** The text of a finite float64 in a JSON document is produced by
    strconv's shortest-representation printer, which is not modelled:
    the encoder is parametric in it. *)
Class FloatFormat := formatFloat : float → string.

(** ingest.CheckTag, the naming rules of the destination backend
    (declared outside this package): [None] accepts the name. *)
Class TagRules := CheckTag : string → option error.

(** ** Log entries (entry.Entry); a tag id is a uint16 *)

Module entry.

Record Entry := { TS : Timestamp; Tag : Z; Data : string }.

(** The conversion [entry.EntryTag(n)] of an int. *)
Definition EntryTag (n : Z) : Z := n mod 2 ^ 16.

End entry.

(** ** The byte stream between the caller and the upload worker

    [io.Pipe]: a write hands its bytes to the reader and returns when
    they are all taken or the pipe is shut. [sent] is what the reader
    (the request body) has received. [rclose = Some (k, e)] says that the
    read side takes [k] more bytes and is then closed with [e];
    [None] that it keeps reading. A reader that stops reading without
    closing, on which a write would wait for ever, is not among the
    behaviours described here. *)

Record pipe := { sent : string; rclose : option (nat * error); wclosed : bool }.

Definition ErrClosedPipe : error := "io: read/write on closed pipe".

Definition new_pipe (stop : option (nat * error)) : pipe :=
  {| sent := ""; rclose := stop; wclosed := false |}.

Definition pipe_Write (p : pipe) (b : string) : (nat * option error) * pipe :=
  if wclosed p then ((0%nat, Some ErrClosedPipe), p)
  else
    match rclose p with
    | None =>
        ((String.length b, None),
         {| sent := sent p +:+ b; rclose := None; wclosed := false |})
    | Some (k, e) =>
        if (k =? 0)%nat then ((0%nat, Some e), p)
        else if (String.length b <=? k)%nat then
          ((String.length b, None),
           {| sent := sent p +:+ b;
              rclose := Some ((k - String.length b)%nat, e);
              wclosed := false |})
        else
          ((k, Some e),
           {| sent := sent p +:+ take_bytes k b;
              rclose := Some (0%nat, e);
              wclosed := false |})
    end.

Definition pipe_Close (p : pipe) : pipe :=
  {| sent := sent p; rclose := rclose p; wclosed := true |}.

(** ** The outcome channel: [make(chan error, 1)] *)

Record chan := { buf : option (option error); closed : bool }.

Definition make_chan : chan := {| buf := None; closed := false |}.

(** A send that does not block; [None] when it would (or would panic). *)
Definition chan_send (v : option error) (c : chan) : option chan :=
  match buf c, closed c with
  | None, false => Some {| buf := Some v; closed := false |}
  | _, _ => None
  end.

Definition chan_close (c : chan) : chan := {| buf := buf c; closed := true |}.

(** A receive: the buffered value if there is one, the zero value [nil]
    once the channel is closed and drained, and [None] while it would
    block. *)
Definition chan_recv (c : chan) : option (option error * chan) :=
  match buf c with
  | Some v => Some (v, {| buf := None; closed := closed c |})
  | None => if closed c then Some (None, c) else None
  end.

(** ** What the HTTP client meets *)

(** A response body: its bytes, and how reading past them ends
    ([None]: end of stream). *)
Record body := { content : string; readErr : option error }.

Record Response := { StatusCode : Z; Status : string; Body : body }.

Inductive exchange :=
  | NewRequestFails (e : error)
  | DoFails (e : error)
  | Responds (r : Response).

(** [ioutil.ReadAll(&io.LimitedReader{R: b, N: n})]. *)
Definition readLimited (n : nat) (b : body) : string * option error :=
  if (n <=? String.length (content b))%nat then (take_bytes n (content b), None)
  else (content b, readErr b).

(** ** The connection *)

Record GeneratorConfig := {
  HEC : string;
  Tag : string;
  Auth : string;
  modeHECRaw : bool
}.

Record URL := { Host : string; urlString : string }.

(** The goroutine started by [go hec.httpRoutine(rdr)]: not started,
    running towards its one send, past the send with the deferred
    [close(hec.errch)] still to run, or returned. *)
Inductive worker :=
  | Idle
  | Running (x : exchange)
  | Posted
  | Exited.

(** [routine] is not a field of the Go struct: it is the state of the
    goroutine that shares [errch] and the pipe with the caller. *)
Record hecIgst := {
  cfg : GeneratorConfig;
  name : string;
  auth : string;
  uri : URL;
  to : Z;
  src : option string;
  tags : gmap Z string;
  errch : chan;
  wtr : option pipe;
  routine : worker
}.

Definition set_src (ip : option string) (h : hecIgst) : hecIgst :=
  {| cfg := cfg h; name := name h; auth := auth h; uri := uri h; to := to h;
     src := ip; tags := tags h; errch := errch h; wtr := wtr h;
     routine := routine h |}.

Definition set_tags (t : gmap Z string) (h : hecIgst) : hecIgst :=
  {| cfg := cfg h; name := name h; auth := auth h; uri := uri h; to := to h;
     src := src h; tags := t; errch := errch h; wtr := wtr h;
     routine := routine h |}.

Definition set_wtr (w : option pipe) (h : hecIgst) : hecIgst :=
  {| cfg := cfg h; name := name h; auth := auth h; uri := uri h; to := to h;
     src := src h; tags := tags h; errch := errch h; wtr := w;
     routine := routine h |}.

Definition set_worker (c : chan) (r : worker) (h : hecIgst) : hecIgst :=
  {| cfg := cfg h; name := name h; auth := auth h; uri := uri h; to := to h;
     src := src h; tags := tags h; errch := c; wtr := wtr h;
     routine := r |}.

(** What a call does: it returns (an error or nil), panics, or never
    returns. *)
Inductive result :=
  | Returned (err : option error)
  | Panicked
  | Blocked.

(** ** The environment of a connection: the network and URL functions
    construction calls, and what the upload request will meet. *)

Record TCPConn := { LocalAddr : string; closeErr : option error }.

Record Net := {
  url_Parse : string → error + URL;
  ResolveTCPAddr : string → error + string;
  DialTCP : string → error + TCPConn;
  SplitHostPort : string → error + (string * string);
  ParseIP : string → option string;
  peer : exchange;
  bodyStop : option (nat * error)
}.

(** ** Endpoint resolution and construction *)

Definition test (net : Net) (hec : hecIgst) : (option string * option error) * hecIgst :=
  match ResolveTCPAddr net (Host (uri hec)) with
  | inl e => ((None, Some e), hec)
  | inr raddr =>
      match DialTCP net raddr with
      | inl e => ((None, Some e), hec)
      | inr conn =>
          match SplitHostPort net (LocalAddr conn) with
          | inl e => ((None, Some e), hec)
          | inr (ipstr, _) =>
              let hec' := set_src (ParseIP net ipstr) hec in
              ((src hec', closeErr conn), hec')
          end
      end
  end.

Definition newHecConn (net : Net) (nm : string) (gc : GeneratorConfig) (tmo : Z)
  : option hecIgst * option error :=
  match url_Parse net (HEC gc) with
  | inl e => (None, Some e)
  | inr u =>
      let hec := {| cfg := gc; name := nm; auth := "Splunk " +:+ Auth gc;
                    uri := u; to := tmo; src := None;
                    tags := {[ 0 := Tag gc ]}; errch := make_chan;
                    wtr := None; routine := Idle |} in
      let '((ip, err), hec1) := test net hec in
      let hec2 := set_src ip hec1 in
      match err with
      | Some e => (Some hec2, Some e)
      | None =>
          (Some (set_worker (errch hec2) (Running (peer net))
                   (set_wtr (Some (new_pipe (bodyStop net))) hec2)),
           None)
      end
  end.

Definition SourceIP (hec : hecIgst) : option string * option error := (src hec, None).

(** ** The upload worker *)

(** The error posted for a response whose status is not 200. *)
Definition statusError (r : Response) : error :=
  let msg :=
    match readLimited 512 (Body r) with
    | (b, None) => b
    | (_, Some _) => ""
    end in
  "invalid status " +:+ pretty (StatusCode r) +:+ " (" +:+ Status r +:+ ")"
    +:+ nl +:+ msg.

(** The one value [httpRoutine] sends on [errch]. *)
Definition httpRoutine_post (x : exchange) : option error :=
  match x with
  | NewRequestFails e => Some e
  | DoFails e => Some e
  | Responds r => if StatusCode r =? 200 then None else Some (statusError r)
  end.

(** One move of the goroutine: its send, then the deferred close. *)
Definition httpRoutine_step (hec : hecIgst) : option hecIgst :=
  match routine hec with
  | Running x =>
      match chan_send (httpRoutine_post x) (errch hec) with
      | Some c => Some (set_worker c Posted hec)
      | None => None
      end
  | Posted => Some (set_worker (chan_close (errch hec)) Exited hec)
  | Idle | Exited => None
  end.

(** [httpRoutine] run to its return. *)
Definition httpRoutine (hec : hecIgst) : hecIgst :=
  match httpRoutine_step hec with
  | Some h1 => match httpRoutine_step h1 with Some h2 => h2 | None => h1 end
  | None => hec
  end.

(** The goroutine moves some number of times. *)
Inductive worker_runs : hecIgst → hecIgst → Prop :=
  | runs_refl h : worker_runs h h
  | runs_step h h1 h2 :
      httpRoutine_step h = Some h1 → worker_runs h1 h2 → worker_runs h h2.

(** ** Close *)

(** The receive [<-hec.errch]: it waits for the goroutine as long as
    that can still move. *)
Fixpoint await (fuel : nat) (hec : hecIgst) : result * hecIgst :=
  match chan_recv (errch hec) with
  | Some (v, c) => (Returned v, set_worker c (routine hec) hec)
  | None =>
      match fuel with
      | O => (Blocked, hec)
      | S f =>
          match httpRoutine_step hec with
          | Some h' => await f h'
          | None => (Blocked, hec)
          end
      end
  end.

Definition Close (hec : hecIgst) : result * hecIgst :=
  match wtr hec with
  | None => (Panicked, hec)
  | Some p => await 2 (set_wtr (Some (pipe_Close p)) hec)
  end.

(** [Close] under any scheduling of the goroutine: the writer is closed,
    the goroutine moves as it may, and the receive takes what the
    channel then offers. *)
Inductive Close_returns : hecIgst → option error → hecIgst → Prop :=
  | Close_recv hec p h1 v c :
      wtr hec = Some p →
      worker_runs (set_wtr (Some (pipe_Close p)) hec) h1 →
      chan_recv (errch h1) = Some (v, c) →
      Close_returns hec v (set_worker c (routine h1) h1).

Definition WaitForHot (hec : hecIgst) (d : Z) : option error := None.

Definition Sync (hec : hecIgst) (d : Z) : option error := None.

(** ** The tag table *)

Definition LookupTag (tag : Z) (hec : hecIgst) : string * bool :=
  match tags hec !! tag with
  | Some v => (v, true)
  | None => ("", false)
  end.

(** The loop [for k, vv := range hec.tags { if v == vv { ... return } }]:
    the first key met that holds [v]. Go leaves the order of the visit
    open; here it is the order of [map_to_list]. *)
Definition findTag (v : string) (t : gmap Z string) : option Z :=
  fst <$> List.find (λ kv, bool_decide (v = kv.2)) (map_to_list t).

Definition NegotiateTag `{TagRules} (v : string) (hec : hecIgst)
  : (Z * option error) * hecIgst :=
  match CheckTag v with
  | Some e => ((0, Some e), hec)
  | None =>
      match findTag v (tags hec) with
      | Some k => ((k, None), hec)
      | None =>
          let tag := entry.EntryTag (Z.of_nat (size (tags hec))) in
          ((tag, None), set_tags (<[ tag := v ]> (tags hec)) hec)
      end
  end.

Definition GetTag (v : string) (hec : hecIgst) : (Z * option error) * hecIgst :=
  match findTag v (tags hec) with
  | Some k => ((k, None), hec)
  | None => ((0, Some "not found"), hec)
  end.

(** Calls of [NegotiateTag] in a row, with what each returned. *)
Fixpoint NegotiateTags `{TagRules} (names : list string) (hec : hecIgst)
  : list (Z * option error) * hecIgst :=
  match names with
  | [] => ([], hec)
  | v :: rest =>
      let '(r, h1) := NegotiateTag v hec in
      let '(rs, h2) := NegotiateTags rest h1 in
      (r :: rs, h2)
  end.

(** Every name is held by at most one id. *)
Definition names_unique (t : gmap Z string) : Prop :=
  ∀ k1 k2 v, t !! k1 = Some v → t !! k2 = Some v → k1 = k2.

(** The ids in use are exactly [0 .. size - 1]. *)
Definition dense (t : gmap Z string) : Prop :=
  ∀ k, is_Some (t !! k) ↔ 0 <= k < Z.of_nat (size t).

Definition holds_name (t : gmap Z string) (v : string) : Prop :=
  ∃ k, t !! k = Some v.

(** A connection as construction leaves its table, and the connections
    reached from it by negotiating [names] in order. *)
Definition seeded (hec : hecIgst) : Prop := tags hec = {[ 0 := Tag (cfg hec) ]}.

Inductive negotiated `{TagRules} (h0 : hecIgst) : list string → hecIgst → Prop :=
  | negotiated_nil : negotiated h0 [] h0
  | negotiated_snoc names hec v :
      negotiated h0 names hec →
      negotiated h0 (names ++ [v]) (NegotiateTag v hec).2.

(** ** The wire encodings *)

(** Raw mode: the payload, then a newline. *)
Definition sendRaw (hec : hecIgst) (ent : option entry.Entry) : result * hecIgst :=
  match ent with
  | None => (Panicked, hec)
  | Some e =>
      match wtr hec with
      | None => (Panicked, hec)
      | Some p =>
          let '((_, err), p1) := pipe_Write p (entry.Data e) in
          match err with
          | Some er => (Returned (Some er), set_wtr (Some p1) hec)
          | None =>
              let '((_, err2), p2) := pipe_Write p1 nl in
              (Returned err2, set_wtr (Some p2) hec)
          end
      end
  end.

Record hecent := { Event : string; Time : float; ST : string }.

(** Does the payload look like a JSON object? *)
Definition looksLikeObject (data : string) : bool :=
  (2 <=? String.length data)%nat
  && bool_decide (String.get 0 data = Some "{"%char)
  && bool_decide (String.get (String.length data - 1) data = Some "}"%char).

(** [setData], with the package variable [osc] passed in and out.
    [json.Marshal] of a string cannot fail, so the final [return nil]
    is never taken. *)
Definition setData (data : string) (osc : bool) : string * bool :=
  if looksLikeObject data then
    let osc' := negb osc in
    if osc' then (data, osc') else (json.appendString data, osc')
  else (json.appendString data, osc).

Definition member (key val : string) : string :=
  String "034"%char key +:+ String "034"%char ":" +:+ val.

Definition object (members : list string) : string :=
  "{" +:+ String.concat "," members +:+ "}".

Definition MarshalerError : error :=
  "json: error calling MarshalJSON for type json.RawMessage".

Definition UnsupportedValueError : error := "json: unsupported value".

(** [json.Marshal] of a [hecent]: the fields in the order of the struct,
    each left out when empty (omitempty); the raw message is checked
    and compacted, the float must be finite. *)
Definition marshal_hecent `{FloatFormat} (v : hecent) : error + string :=
  let event :=
    if (String.length (Event v) =? 0)%nat then inr []
    else match json.appendCompact (Event v) with
         | Some b => inr [member "event" b]
         | None => inl MarshalerError
         end in
  let time :=
    if PrimFloat.eqb (Time v) 0 then inr []
    else if PrimFloat.is_nan (Time v) || PrimFloat.is_infinity (Time v)
         then inl UnsupportedValueError
         else inr [member "time" (formatFloat (Time v))] in
  let st :=
    if (String.length (ST v) =? 0)%nat then []
    else [member "sourcetype" (json.appendString (ST v))] in
  match event with
  | inl e => inl e
  | inr ev =>
      match time with
      | inl e => inl e
      | inr tm => inr (object (ev ++ tm ++ st))
      end
  end.

(** [json.NewEncoder(w).Encode(v)]: nothing is written when marshalling
    fails; otherwise the document and a newline go out in one write. *)
Definition Encode `{FloatFormat} (w : option pipe) (v : hecent)
  : result * option pipe :=
  match marshal_hecent v with
  | inl e => (Returned (Some e), w)
  | inr b =>
      match w with
      | None => (Panicked, w)
      | Some p =>
          let '((_, err), p') := pipe_Write p (b +:+ nl) in
          (Returned err, Some p')
      end
  end.

Definition sendEvent `{FloatFormat} (hec : hecIgst) (ent : option entry.Entry)
  : result * hecIgst :=
  match ent with
  | None => (Returned None, hec)
  | Some e =>
      let v := {| Event := entry.Data e;
                  Time := timeFloat (entry.TS e);
                  ST := Tag (cfg hec) |} in
      let '(r, w) := Encode (wtr hec) v in
      (r, set_wtr w hec)
  end.

Definition WriteEntry `{FloatFormat} (hec : hecIgst) (ent : option entry.Entry)
  : result * hecIgst :=
  if modeHECRaw (cfg hec) then sendRaw hec ent else sendEvent hec ent.

Definition Write `{FloatFormat} (hec : hecIgst) (ts : Timestamp) (tag : Z)
  (data : string) : result * hecIgst :=
  WriteEntry hec (Some {| entry.TS := ts; entry.Tag := tag; entry.Data := data |}).

Fixpoint WriteBatch `{FloatFormat} (hec : hecIgst) (ents : list (option entry.Entry))
  : result * hecIgst :=
  match ents with
  | [] => (Returned None, hec)
  | v :: rest =>
      match WriteEntry hec v with
      | (Returned None, h') => WriteBatch h' rest
      | (r, h') => (r, h')
      end
  end.

(** The bytes the request body has received so far. *)
Definition stream (hec : hecIgst) : string :=
  match wtr hec with
  | Some p => sent p
  | None => ""
  end.

(** The double quote, and a text between double quotes. *)
Definition dq : string := String "034"%char "".

Definition quoted (s : string) : string := dq +:+ s +:+ dq.

(** The JSON object with the single member [a] set to 1. *)
Definition a_is_1 : string := "{" +:+ quoted "a" +:+ ":1}".

(** ** Concrete settings used in the examples below *)

Definition isAlnum (c : ascii) : bool :=
  json.in_range 0x30 0x39 c || json.in_range 0x61 0x7A c || json.in_range 0x41 0x5A c.

Fixpoint all_bytes (P : ascii → bool) (s : string) : bool :=
  match s with
  | "" => true
  | String c r => P c && all_bytes P r
  end.

(** Modelled from the spec: ingest.CheckTag is declared outside the
    sources at hand, and the spec says only that a name breaking the
    backend's naming rules is refused. This rule set is a cautious one:
    a name passes when it is not empty, at most 4096 bytes long, and
    made of ASCII letters and digits. *)
Definition alnumRules : TagRules := λ v,
  if (String.length v =? 0)%nat then Some "empty tag"
  else if (4096 <? String.length v)%nat then Some "oversized tag"
  else if all_bytes isAlnum v then None
  else Some "forbidden character in tag".

(** A float printer for whole numbers, which JSON writes without a
    fraction; enough for timestamps on a second boundary. *)
Definition wholeFormat : FloatFormat := λ f,
  match Prim2SF f with
  | S754_finite s m e =>
      let z := if 0 <=? e then Z.pos m * 2 ^ e else Z.pos m / 2 ^ (- e) in
      pretty (if s then - z else z)
  | _ => "0"
  end.

Definition collector : URL :=
  {| Host := "127.0.0.1:8088";
     urlString := "http://127.0.0.1:8088/services/collector" |}.

(** A collector on the loopback interface that answers with [x]. *)
Definition loopback (x : exchange) : Net :=
  {| url_Parse := λ s,
       if decide (s = urlString collector) then inr collector
       else inl "parse: invalid URL";
     ResolveTCPAddr := λ h, inr h;
     DialTCP := λ a, inr {| LocalAddr := "127.0.0.1:54321"; closeErr := None |};
     SplitHostPort := λ s, inr ("127.0.0.1", "54321");
     ParseIP := λ s,
       if decide (s = "127.0.0.1")
       then Some (String "127"%char (String "000"%char (String "000"%char
                   (String "001"%char ""))))
       else None;
     peer := x;
     bodyStop := None |}.

(** A collector reached over a link-local IPv6 route: the local address
    carries a zone, which [net.ParseIP] does not accept. *)
Definition zoned (x : exchange) : Net :=
  {| url_Parse := λ s, inr {| Host := "[fe80::2%eth0]:8088"; urlString := s |};
     ResolveTCPAddr := λ h, inr h;
     DialTCP := λ a, inr {| LocalAddr := "[fe80::1%eth0]:54321"; closeErr := None |};
     SplitHostPort := λ s,
       if decide (s = "[fe80::1%eth0]:54321") then inr ("fe80::1%eth0", "54321")
       else inl "missing port in address";
     ParseIP := λ s, None;
     peer := x;
     bodyStop := None |}.

Definition event_cfg : GeneratorConfig :=
  {| HEC := urlString collector; Tag := "syslog"; Auth := "token";
     modeHECRaw := false |}.

Definition raw_cfg : GeneratorConfig :=
  {| HEC := urlString collector; Tag := "syslog"; Auth := "token";
     modeHECRaw := true |}.

(** The connection [newHecConn] builds for [gc] on [loopback x]. *)
Definition fresh (gc : GeneratorConfig) (x : exchange) : hecIgst :=
  {| cfg := gc; name := "generator"; auth := "Splunk " +:+ Auth gc;
     uri := collector; to := 0;
     src := ParseIP (loopback x) "127.0.0.1";
     tags := {[ 0 := Tag gc ]}; errch := make_chan;
     wtr := Some (new_pipe None); routine := Running x |}.

Definition accepted : exchange :=
  Responds {| StatusCode := 200; Status := "200 OK";
              Body := {| content := ""; readErr := None |} |}.

Definition serverError : Response :=
  {| StatusCode := 500; Status := "500 Internal Server Error";
     Body := {| content := "server error"; readErr := None |} |}.

(** The same answer with the connection lost while the body is read. *)
Definition serverErrorCut : Response :=
  {| StatusCode := 500; Status := "500 Internal Server Error";
     Body := {| content := "server error"; readErr := Some "unexpected EOF" |} |}.

Definition epoch : Timestamp := {| Sec := unixToInternal; Nsec := 0 |}.

Definition sample (data : string) : entry.Entry :=
  {| entry.TS := {| Sec := unixToInternal + 5; Nsec := 0 |};
     entry.Tag := 0; entry.Data := data |}.

(** Distinct tag names [t1], [t2], ... *)
Definition tagName (i : nat) : string := "t" +:+ pretty i.

Definition tagNames (from count : nat) : list string := tagName <$> seq from count.

(** The connection after the names [t1 .. t65535] have been negotiated:
    together with the default tag its table holds 65536 names. *)
Definition crowded : hecIgst :=
  (NegotiateTags (H := alnumRules) (tagNames 1 (Z.to_nat 65535))
     (fresh event_cfg accepted)).2.

(** ** Batches *)

(** The bytes a successful write of [e] puts on the stream. *)
Definition wire `{FloatFormat} (hec : hecIgst) (e : entry.Entry) : string :=
  if modeHECRaw (cfg hec) then entry.Data e +:+ nl
  else
    match marshal_hecent {| Event := entry.Data e;
                            Time := timeFloat (entry.TS e);
                            ST := Tag (cfg hec) |} with
    | inr b => b +:+ nl
    | inl _ => ""
    end.

(** Every entry of the list was written, in order, without error. *)
Inductive written `{FloatFormat} : hecIgst → list entry.Entry → hecIgst → Prop :=
  | written_nil hec : written hec [] hec
  | written_cons hec e h1 es h2 :
      WriteEntry hec (Some e) = (Returned None, h1) →
      written h1 es h2 →
      written hec (e :: es) h2.

(** The size of the table just before each call of a row of
    [NegotiateTag] calls. *)
Fixpoint sizesBefore `{TagRules} (names : list string) (hec : hecIgst) : list Z :=
  match names with
  | [] => []
  | v :: rest => Z.of_nat (size (tags hec)) :: sizesBefore rest (NegotiateTag v hec).2
  end.

(** What holds of the table of every connection: names are not
    repeated, and the ids are [0 .. size - 1], at most 2^16 of them. *)
Definition table_ok (t : gmap Z string) : Prop :=
  names_unique t ∧ dense t ∧ 0 < Z.of_nat (size t) <= 2 ^ 16.

(** ** States of the outcome channel *)

(** The channel and the goroutine agree: nothing is sent before the
    goroutine's send, and the channel is closed exactly when the
    goroutine has returned. *)
Definition chan_ok (hec : hecIgst) : Prop :=
  match routine hec with
  | Idle | Running _ => errch hec = make_chan
  | Posted => closed (errch hec) = false
  | Exited => closed (errch hec) = true
  end.

(** The request of the connection meets [x], and its outcome has not
    been received yet. *)
Definition awaits (x : exchange) (hec : hecIgst) : Prop :=
  match routine hec with
  | Idle => False
  | Running y => y = x ∧ errch hec = make_chan
  | Posted => errch hec = {| buf := Some (httpRoutine_post x); closed := false |}
  | Exited => errch hec = {| buf := Some (httpRoutine_post x); closed := true |}
  end.

(** The outcome has been received: the channel is empty for good. *)
Definition drained (hec : hecIgst) : Prop :=
  buf (errch hec) = None ∧
  (routine hec = Posted ∧ closed (errch hec) = false ∨
   routine hec = Exited ∧ closed (errch hec) = true).

(** Calls of [Close] in a row, with what each returned. *)
Inductive Close_calls : hecIgst → list (option error) → hecIgst → Prop :=
  | calls_nil hec : Close_calls hec [] hec
  | calls_cons hec v h1 vs h2 :
      Close_returns hec v h1 → Close_calls h1 vs h2 →
      Close_calls hec (v :: vs) h2.

(** A decision procedure for [contains]. *)
Fixpoint containsb (needle hay : string) : bool :=
  String.prefix needle hay
  || match hay with
     | "" => false
     | String _ rest => containsb needle rest
     end.

(** ** Failures of construction *)

(** One of the steps of construction fails with [e]: parsing the URL,
    resolving the host, connecting, splitting the local address into
    host and port, or closing the probe connection. *)
Inductive probe_fails (net : Net) (gc : GeneratorConfig) : error → Prop :=
  | fails_parse e :
      url_Parse net (HEC gc) = inl e → probe_fails net gc e
  | fails_resolve u e :
      url_Parse net (HEC gc) = inr u →
      ResolveTCPAddr net (Host u) = inl e → probe_fails net gc e
  | fails_dial u a e :
      url_Parse net (HEC gc) = inr u →
      ResolveTCPAddr net (Host u) = inr a →
      DialTCP net a = inl e → probe_fails net gc e
  | fails_split u a c e :
      url_Parse net (HEC gc) = inr u →
      ResolveTCPAddr net (Host u) = inr a →
      DialTCP net a = inr c →
      SplitHostPort net (LocalAddr c) = inl e → probe_fails net gc e
  | fails_close u a c hp e :
      url_Parse net (HEC gc) = inr u →
      ResolveTCPAddr net (Host u) = inr a →
      DialTCP net a = inr c →
      SplitHostPort net (LocalAddr c) = inr hp →
      closeErr c = Some e → probe_fails net gc e.

(** A host that refuses the connection. *)
Definition refusing : Net :=
  {| url_Parse := url_Parse (loopback accepted);
     ResolveTCPAddr := λ h, inr h;
     DialTCP := λ a, inl "connect: connection refused";
     SplitHostPort := SplitHostPort (loopback accepted);
     ParseIP := ParseIP (loopback accepted);
     peer := accepted;
     bodyStop := None |}.

(** ** Reading a whole text with the scanner *)

(** The scanner run over a text, stopping at the first error as the
    compactor does. *)
Fixpoint scan_all (scan : json.scanner) (s : string) : json.scanner :=
  match s with
  | "" => scan
  | String c r =>
      let '(v, scan') := json.scan_step scan c in
      match v with
      | json.scanError => scan'
      | _ => scan_all scan' r
      end
  end.

(** The scanner inside a top-level string literal. *)
Definition inString : json.scanner :=
  {| json.step := json.stateInString; json.parseStack := [];
     json.err := false; json.endTop := false |}.

(** The next [k] bytes of [s], as far as there are any, are not ASCII. *)
Fixpoint high_bytes (k : nat) (s : string) : Prop :=
  match k, s with
  | S k', String c r => (0x80 <=? byteval c)%N = true ∧ high_bytes k' r
  | _, _ => True
  end.

(** What [appendString_go] may rely on in each of its modes. *)
Definition carry_ok (m : json.carry) (s : string) : Prop :=
  match m with
  | json.Copy k => high_bytes k s
  | _ => True
  end.

(** ** Batches with nil entries *)



(** ** The heading of a refusal *)

Definition statusHeading (r : Response) : string :=
  "invalid status " +:+ pretty (StatusCode r) +:+ " (" +:+ Status r +:+ ")" +:+ nl.

(** * Properties *)

(** ** Byte strings *)

Lemma app_cons c s t : String c s +:+ t = String c (s +:+ t).
Proof. reflexivity. Qed.

Lemma app_nil_l s : "" +:+ s = s.
Proof. reflexivity. Qed.

Lemma app_nil_r s : s +:+ "" = s.
Proof. induction s as [|c s IH]; [done|]. by rewrite app_cons, IH. Qed.

Lemma app_assoc s t u : (s +:+ t) +:+ u = s +:+ t +:+ u.
Proof. induction s as [|c s IH]; [done|]. by rewrite !app_cons, IH. Qed.

Lemma length_app s t : String.length (s +:+ t) = (String.length s + String.length t)%nat.
Proof. induction s as [|c s IH]; [done|]. rewrite app_cons. simpl. by rewrite IH. Qed.

Lemma take_drop n s : take_bytes n s +:+ drop_bytes n s = s.
Proof.
  revert s. induction n as [|n IH]; intros [|c s]; try done.
  simpl. by rewrite app_cons, IH.
Qed.

Lemma take_all n s : (String.length s <= n)%nat → take_bytes n s = s.
Proof.
  revert s. induction n as [|n IH]; intros [|c s] Hl; simpl in *; try done; try lia.
  f_equal. apply IH. lia.
Qed.

Lemma length_take n s : (String.length (take_bytes n s) <= n)%nat.
Proof.
  revert s. induction n as [|n IH]; intros [|c s]; simpl; try lia.
  specialize (IH s). lia.
Qed.

Lemma contains_refl s : contains s s.
Proof. exists "", "". by rewrite app_nil_l, app_nil_r. Qed.

Lemma contains_app_r pre s t : contains s t → contains s (pre +:+ t).
Proof.
  intros (a & b & ->). exists (pre +:+ a), b. by rewrite app_assoc.
Qed.

Lemma contains_app_l post s t : contains s t → contains s (t +:+ post).
Proof.
  intros (a & b & ->). exists a, (b +:+ post). by rewrite !app_assoc.
Qed.

(** ** Timestamps *)

Lemma unixToInternal_value : unixToInternal = 62135596800.
Proof. reflexivity. Qed.

Lemma wrap64_id z : is_int64 z → wrap64 z = z.
Proof.
  unfold is_int64, int64_min, int64_max, wrap64. intros Hz.
  rewrite Z.mod_small; lia.
Qed.

(** For a normalized timestamp the seconds field alone tells on which
    side of the epoch it lies. *)
Lemma beforeEpoch_Sec ts :
  normalized ts → beforeEpoch ts ↔ Sec ts < unixToInternal.
Proof.
  unfold normalized, beforeEpoch, unixNano. rewrite unixToInternal_value.
  intros [_ Hn]. split; intros H; nia.
Qed.

(** C2, as the code has it. [timeFloat] goes by the seconds field
    alone: it is exactly 0 when [Sec] is before the epoch second, and
    otherwise the float64 sum of the seconds since the epoch and of the
    nanoseconds divided by 1e9. Where the nanoseconds lie in [0, 1e9)
    the test on the seconds says the same as the timestamp lying
    strictly before the Unix epoch. *)
Theorem timeFloat_by_seconds ts :
  (Sec ts < unixToInternal → timeFloat ts = 0%float) ∧
  (unixToInternal <= Sec ts → is_int64 (Sec ts) →
     timeFloat ts =
       (float64_of_int64 (secondsSinceEpoch ts)
        + float64_of_int64 (Nsec ts) / 1000000000)%float) ∧
  (0 <= Nsec ts < 1000000000 → (beforeEpoch ts ↔ Sec ts < unixToInternal)).
Proof.
  unfold timeFloat, secondsSinceEpoch. split_and!.
  - intros Hlt. by destruct (Z.ltb_spec (Sec ts) unixToInternal); [|lia].
  - intros Hge Hs. destruct (Z.ltb_spec (Sec ts) unixToInternal); [lia|].
    rewrite wrap64_id; [done|].
    revert Hs Hge. rewrite unixToInternal_value.
    unfold is_int64, int64_min, int64_max. lia.
  - intros Hn. unfold beforeEpoch, unixNano. rewrite unixToInternal_value.
    split; intros H; nia.
Qed.

Lemma timeFloat_by_seconds_witness :
  timeFloat {| Sec := unixToInternal + 1; Nsec := 500000000 |} = 1.5%float.
Proof.
  destruct (timeFloat_by_seconds {| Sec := unixToInternal + 1; Nsec := 500000000 |})
    as (_ & H & _).
  rewrite H; [reflexivity| |].
  - simpl. lia.
  - unfold is_int64, int64_min, int64_max. simpl. rewrite unixToInternal_value. lia.
Defined.

(** Two timestamps whose nanoseconds are out of range. The first lies
    one nanosecond before the epoch and is given a negative time, not 0;
    the second lies one second after the epoch and is given 0. *)
Lemma timeFloat_out_of_range_nanoseconds :
  let early := {| Sec := unixToInternal; Nsec := -1 |} in
  let late := {| Sec := unixToInternal - 1; Nsec := 2000000000 |} in
  (is_int64 (Sec early) ∧ is_int64 (Nsec early) ∧ beforeEpoch early ∧
   (timeFloat early <? 0)%float = true ∧ timeFloat early ≠ 0%float) ∧
  (is_int64 (Sec late) ∧ is_int64 (Nsec late) ∧ ¬ beforeEpoch late ∧
   unixNano late = 1000000000 ∧ timeFloat late = 0%float).
Proof.
  intros early late.
  assert (Hrange : ∀ z, - 2 ^ 62 <= z <= 2 ^ 62 → is_int64 z)
    by (unfold is_int64, int64_min, int64_max; lia).
  assert (Hneg : (timeFloat early <? 0)%float = true) by reflexivity.
  assert (Hnz : timeFloat early ≠ 0%float).
  { intros Hz. rewrite Hz in Hneg. discriminate Hneg. }
  assert (Hbefore : beforeEpoch early)
    by (unfold beforeEpoch, unixNano; simpl; lia).
  assert (Hnano : unixNano late = 1000000000)
    by (unfold unixNano; simpl; lia).
  assert (Hafter : ¬ beforeEpoch late)
    by (unfold beforeEpoch; rewrite Hnano; lia).
  assert (Hzero : timeFloat late = 0%float) by reflexivity.
  repeat split; try assumption; apply Hrange; simpl;
    rewrite ?unixToInternal_value; lia.
Qed.

Example timeFloat_before :
  timeFloat {| Sec := unixToInternal - 1; Nsec := 999999999 |} = 0%float.
Proof. reflexivity. Qed.

Example timeFloat_at_epoch : timeFloat epoch = 0%float.
Proof. reflexivity. Qed.

Example timeFloat_quarter :
  timeFloat {| Sec := unixToInternal + 1700000000; Nsec := 250000000 |}
  = 1700000000.25%float.
Proof. reflexivity. Qed.

(** ** The byte stream *)

Lemma pipe_Write_grows p b n err p' :
  pipe_Write p b = ((n, err), p') →
  ∃ part, sent p' = sent p +:+ part ∧ (err = None → part = b).
Proof.
  unfold pipe_Write.
  destruct (wclosed p); [|destruct (rclose p) as [[k e]|]].
  - intros; simplify_eq. exists "". by rewrite app_nil_r.
  - destruct (k =? 0)%nat; [|destruct (String.length b <=? k)%nat];
      intros; simplify_eq; simpl.
    + exists "". by rewrite app_nil_r.
    + by exists b.
    + by eexists.
  - intros; simplify_eq. by exists b.
Qed.

Lemma pipe_Write_ok p b n p' :
  pipe_Write p b = ((n, None), p') → sent p' = sent p +:+ b ∧ n = String.length b.
Proof.
  unfold pipe_Write.
  destruct (wclosed p); [|destruct (rclose p) as [[k e]|]].
  - intros; simplify_eq.
  - destruct (k =? 0)%nat; [|destruct (String.length b <=? k)%nat];
      by intros; simplify_eq.
  - by intros; simplify_eq.
Qed.

(** While the reader keeps reading and the writer is open, a write
    succeeds. *)
Lemma pipe_Write_open p b :
  wclosed p = false → rclose p = None →
  ∃ p', pipe_Write p b = ((String.length b, None), p') ∧
        wclosed p' = false ∧ rclose p' = None.
Proof. unfold pipe_Write. intros -> ->. eauto. Qed.

Lemma stream_set_wtr p hec : stream (set_wtr (Some p) hec) = sent p.
Proof. reflexivity. Qed.

Lemma httpRoutine_step_wtr hec h' :
  httpRoutine_step hec = Some h' → wtr h' = wtr hec ∧ tags h' = tags hec ∧ cfg h' = cfg hec.
Proof.
  unfold httpRoutine_step.
  destruct (routine hec); try done.
  - destruct (chan_send _ _); by intros; simplify_eq.
  - by intros; simplify_eq.
Qed.

Lemma await_wtr fuel hec r h' : await fuel hec = (r, h') → wtr h' = wtr hec.
Proof.
  revert hec. induction fuel as [|f IH]; intros hec; simpl.
  - destruct (chan_recv (errch hec)) as [[v c]|]; by intros; simplify_eq.
  - destruct (chan_recv (errch hec)) as [[v c]|]; [by intros; simplify_eq|].
    destruct (httpRoutine_step hec) as [h1|] eqn:Hs; [|by intros; simplify_eq].
    intros Ha. apply IH in Ha. apply httpRoutine_step_wtr in Hs as (Hs & _).
    congruence.
Qed.

Lemma Close_stream hec r h' : Close hec = (r, h') → stream h' = stream hec.
Proof.
  unfold Close, stream. destruct (wtr hec) as [p|] eqn:Hw.
  - intros Ha. apply await_wtr in Ha. by rewrite Ha.
  - intros. simplify_eq. by rewrite Hw.
Qed.

(** ** Raw mode *)

Lemma sendRaw_ok hec e h' :
  sendRaw hec (Some e) = (Returned None, h') →
  stream h' = stream hec +:+ entry.Data e +:+ nl.
Proof.
  unfold sendRaw, stream. destruct (wtr hec) as [p|]; [|done].
  destruct (pipe_Write p (entry.Data e)) as [[n1 [e1|]] p1] eqn:H1; [done|].
  destruct (pipe_Write p1 nl) as [[n2 err2] p2] eqn:H2.
  intros; simplify_eq. simpl.
  apply pipe_Write_ok in H1 as [H1 _]. apply pipe_Write_ok in H2 as [H2 _].
  by rewrite H2, H1, app_assoc.
Qed.

(** C8. In raw mode a successful write of an entry appends exactly the
    payload bytes and one newline to the output stream, and closing the
    connection afterwards leaves the request body at that. *)
Theorem raw_write_appends_line `{FloatFormat} hec e h' :
  modeHECRaw (cfg hec) = true →
  WriteEntry hec (Some e) = (Returned None, h') →
  stream h' = stream hec +:+ entry.Data e +:+ nl ∧
  ∀ r h'', Close h' = (r, h'') → stream h'' = stream hec +:+ entry.Data e +:+ nl.
Proof.
  unfold WriteEntry. intros -> Hw. apply sendRaw_ok in Hw. split; [done|].
  intros r h'' Hc. apply Close_stream in Hc. congruence.
Qed.

Lemma raw_write_appends_line_witness :
  let hec := fresh raw_cfg accepted in
  let e := sample a_is_1 in
  ∃ h', WriteEntry (H := wholeFormat) hec (Some e) = (Returned None, h') ∧
        stream h' = a_is_1 +:+ nl ∧
        stream (Close h').2 = a_is_1 +:+ nl.
Proof.
  intros hec e.
  exists (WriteEntry (H := wholeFormat) hec (Some e)).2.
  assert (Hw : WriteEntry (H := wholeFormat) hec (Some e)
               = (Returned None, (WriteEntry (H := wholeFormat) hec (Some e)).2))
    by reflexivity.
  destruct (raw_write_appends_line (H := wholeFormat) hec e _ eq_refl Hw) as [Hs Hc].
  split; [exact Hw|]. split; [exact Hs|].
  apply (Hc (Close (WriteEntry (H := wholeFormat) hec (Some e)).2).1).
  by destruct (Close _).
Defined.

(** Raw mode in full: the payload goes out as it is, whatever it holds,
    as long as the reader keeps reading. *)
Lemma raw_write_succeeds `{FloatFormat} hec e p :
  modeHECRaw (cfg hec) = true → wtr hec = Some p →
  wclosed p = false → rclose p = None →
  ∃ h', WriteEntry hec (Some e) = (Returned None, h').
Proof.
  unfold WriteEntry, sendRaw. intros -> -> Hc Hr.
  destruct (pipe_Write_open p (entry.Data e) Hc Hr) as (p1 & -> & Hc1 & Hr1).
  destruct (pipe_Write_open p1 nl Hc1 Hr1) as (p2 & -> & _). eauto.
Qed.

(** ** Batches *)

(** A write on a connection that has its stream returns; it only adds
    to the stream, and what it adds on success is the entry's record. *)
Lemma WriteEntry_returns `{FloatFormat} hec e p :
  wtr hec = Some p →
  ∃ err h' p' part,
    WriteEntry hec (Some e) = (Returned err, h') ∧
    wtr h' = Some p' ∧ cfg h' = cfg hec ∧
    stream h' = stream hec +:+ part ∧
    (err = None → part = wire hec e).
Proof.
  intros Hw. unfold WriteEntry, wire, stream.
  destruct (modeHECRaw (cfg hec)).
  - unfold sendRaw. rewrite Hw.
    destruct (pipe_Write p (entry.Data e)) as [[n1 err1] p1] eqn:H1.
    destruct (pipe_Write_grows _ _ _ _ _ H1) as (part1 & Hs1 & Hp1).
    destruct err1 as [e1|].
    + exists (Some e1), (set_wtr (Some p1) hec), p1, part1. by simpl.
    + destruct (pipe_Write p1 nl) as [[n2 err2] p2] eqn:H2.
      destruct (pipe_Write_grows _ _ _ _ _ H2) as (part2 & Hs2 & Hp2).
      exists err2, (set_wtr (Some p2) hec), p2, (part1 +:+ part2). simpl.
      split_and!; try done.
      * by rewrite Hs2, Hs1, app_assoc.
      * intros He. by rewrite Hp1, Hp2.
  - unfold sendEvent, Encode. rewrite Hw.
    destruct (marshal_hecent _) as [me|b].
    + exists (Some me), (set_wtr (Some p) hec), p, "". simpl.
      split_and!; try done. by rewrite app_nil_r.
    + destruct (pipe_Write p (b +:+ nl)) as [[n err] p'] eqn:H1.
      destruct (pipe_Write_grows _ _ _ _ _ H1) as (part & Hs & Hp).
      exists err, (set_wtr (Some p') hec), p', part. by simpl.
Qed.

Lemma written_stream `{FloatFormat} hec es h' :
  is_Some (wtr hec) → written hec es h' →
  is_Some (wtr h') ∧ cfg h' = cfg hec ∧
  stream h' = stream hec +:+ String.concat "" (wire hec <$> es).
Proof.
  intros Hw Hwr. induction Hwr as [hec|hec e h1 es h2 He Hwr IH].
  - simpl. by rewrite app_nil_r.
  - destruct Hw as [p Hp].
    destruct (WriteEntry_returns hec e p Hp) as (err & h & p' & part & HW & Hp' & Hc & Hs & Hpart).
    rewrite He in HW. simplify_eq.
    destruct IH as (Hw2 & Hc2 & Hs2); [by eexists|].
    split_and!; [done|congruence|].
    rewrite Hs2, Hs, Hpart by done.
    assert (Hwire : wire h = wire hec) by (unfold wire; by rewrite Hc).
    rewrite Hwire, app_assoc.
    destruct es as [|e' es]; simpl; [by rewrite !app_nil_r|done].
Qed.

Lemma WriteEntry_appends `{FloatFormat} hec ent :
  ∃ part, stream (WriteEntry hec ent).2 = stream hec +:+ part.
Proof.
  destruct ent as [e|], (wtr hec) as [p|] eqn:Hp.
  - destruct (WriteEntry_returns hec e p Hp) as (err & h' & p' & part & HW & _ & _ & Hs & _).
    exists part. by rewrite HW.
  - exists "". rewrite app_nil_r. unfold WriteEntry, sendRaw, sendEvent, Encode, stream.
    rewrite Hp. destruct (modeHECRaw (cfg hec)); simpl; [by rewrite Hp|].
    by destruct (marshal_hecent _).
  - exists "". rewrite app_nil_r. unfold WriteEntry, sendRaw, sendEvent.
    by destruct (modeHECRaw (cfg hec)).
  - exists "". rewrite app_nil_r. unfold WriteEntry, sendRaw, sendEvent.
    by destruct (modeHECRaw (cfg hec)).
Qed.





Example WriteBatch_raw_all_written :
  let hec := fresh raw_cfg accepted in
  let r := WriteBatch (H := wholeFormat) hec
             [Some (sample "one"); Some (sample "two")] in
  r.1 = Returned None ∧ stream r.2 = "one" +:+ nl +:+ "two" +:+ nl.
Proof. split; reflexivity. Qed.

(** ** The tag table *)

Lemma findTag_Some v t k : findTag v t = Some k → t !! k = Some v.
Proof.
  unfold findTag. destruct (List.find _ _) as [[k' v']|] eqn:Hf; [|done].
  intros [= <-]. apply find_some in Hf as [Hin Hv].
  apply list_elem_of_In, elem_of_map_to_list in Hin.
  apply bool_decide_eq_true in Hv. simpl in Hv. by subst.
Qed.

Lemma findTag_None v t : findTag v t = None → ¬ holds_name t v.
Proof.
  unfold findTag. destruct (List.find _ _) as [kv|] eqn:Hf; [done|].
  intros _ [k Hk].
  assert (Hin : In (k, v) (map_to_list t))
    by by apply list_elem_of_In, elem_of_map_to_list.
  apply (find_none _ _ Hf) in Hin. simpl in Hin.
  by apply bool_decide_eq_false in Hin.
Qed.

(** Where names are not repeated, the order of the visit is of no
    consequence: the loop finds the one id that holds the name. *)
Lemma findTag_unique v t k :
  names_unique t → t !! k = Some v → findTag v t = Some k.
Proof.
  intros Hu Hk. destruct (findTag v t) as [k'|] eqn:Hf.
  - f_equal. apply findTag_Some in Hf. by apply (Hu k' k v).
  - apply findTag_None in Hf. destruct Hf. by exists k.
Qed.

Lemma EntryTag_small n : 0 <= n < 2 ^ 16 → entry.EntryTag n = n.
Proof. intros. unfold entry.EntryTag. by apply Z.mod_small. Qed.

Lemma EntryTag_full : entry.EntryTag (2 ^ 16) = 0.
Proof. reflexivity. Qed.

Lemma NegotiateTag_known `{TagRules} v hec k :
  CheckTag v = None → names_unique (tags hec) → tags hec !! k = Some v →
  NegotiateTag v hec = ((k, None), hec).
Proof.
  intros Hc Hu Hk. unfold NegotiateTag. rewrite Hc.
  by rewrite (findTag_unique v _ k Hu Hk).
Qed.

Lemma NegotiateTag_new `{TagRules} v hec :
  CheckTag v = None → ¬ holds_name (tags hec) v →
  NegotiateTag v hec =
    ((entry.EntryTag (Z.of_nat (size (tags hec))), None),
     set_tags (<[ entry.EntryTag (Z.of_nat (size (tags hec))) := v ]> (tags hec)) hec).
Proof.
  intros Hc Hn. unfold NegotiateTag. rewrite Hc.
  destruct (findTag v (tags hec)) as [k|] eqn:Hf; [|done].
  destruct Hn. exists k. by apply findTag_Some.
Qed.

Lemma NegotiateTag_refused `{TagRules} v hec e :
  CheckTag v = Some e → NegotiateTag v hec = ((0, Some e), hec).
Proof. intros Hc. unfold NegotiateTag. by rewrite Hc. Qed.

(** Writing a name that the table does not hold, at any id, keeps
    names unrepeated. *)
Lemma names_unique_insert t k v :
  names_unique t → ¬ holds_name t v → names_unique (<[ k := v ]> t).
Proof.
  intros Hu Hn k1 k2 w H1 H2.
  destruct (decide (k = k1)) as [<-|Hk1], (decide (k = k2)) as [<-|Hk2]; [done|..].
  - rewrite lookup_insert_eq in H1. rewrite lookup_insert_ne in H2 by done.
    simplify_eq. destruct Hn. by exists k2.
  - rewrite lookup_insert_eq in H2. rewrite lookup_insert_ne in H1 by done.
    simplify_eq. destruct Hn. by exists k1.
  - rewrite lookup_insert_ne in H1, H2 by done. by apply (Hu k1 k2 w).
Qed.

Lemma NegotiateTag_names_unique `{TagRules} v hec :
  names_unique (tags hec) → names_unique (tags (NegotiateTag v hec).2).
Proof.
  intros Hu. unfold NegotiateTag.
  destruct (CheckTag v); [done|].
  destruct (findTag v (tags hec)) eqn:Hf; [done|]. simpl.
  apply names_unique_insert; [done|]. by apply findTag_None.
Qed.

Lemma dense_insert_next t v :
  dense t → dense (<[ Z.of_nat (size t) := v ]> t) ∧
            size (<[ Z.of_nat (size t) := v ]> t) = S (size t).
Proof.
  intros Hd.
  assert (Hnone : t !! Z.of_nat (size t) = None).
  { apply eq_None_not_Some. intros Hs. apply Hd in Hs. lia. }
  split; [|by apply map_size_insert_None].
  intros k. rewrite map_size_insert_None by done.
  destruct (decide (Z.of_nat (size t) = k)) as [<-|Hne].
  - rewrite lookup_insert_eq. split; [lia|by eexists].
  - rewrite lookup_insert_ne by done. rewrite (Hd k). lia.
Qed.

Lemma dense_insert_zero t v :
  dense t → (0 < size t)%nat →
  dense (<[ 0 := v ]> t) ∧ size (<[ 0 := v ]> t) = size t.
Proof.
  intros Hd Hpos.
  assert (Hsome : is_Some (t !! 0)) by (apply Hd; lia).
  destruct Hsome as [w Hw].
  assert (Hsz : size (<[ 0 := v ]> t) = size t) by by eapply map_size_insert_Some.
  split; [|done]. intros k. rewrite Hsz.
  destruct (decide (0 = k)) as [<-|Hne].
  - rewrite lookup_insert_eq. split; [lia|by eexists].
  - rewrite lookup_insert_ne by done. apply Hd.
Qed.

Lemma NegotiateTag_table_ok `{TagRules} v hec :
  table_ok (tags hec) → table_ok (tags (NegotiateTag v hec).2).
Proof.
  intros (Hu & Hd & Hsz). split; [by apply NegotiateTag_names_unique|].
  unfold NegotiateTag. destruct (CheckTag v); [done|].
  destruct (findTag v (tags hec)) eqn:Hf; [done|]. simpl.
  destruct (decide (Z.of_nat (size (tags hec)) = 2 ^ 16)) as [Hfull|Hroom].
  - rewrite Hfull, EntryTag_full.
    destruct (dense_insert_zero (tags hec) v Hd) as [Hd' Hs']; [lia|].
    split; [done|]. rewrite Hs'. lia.
  - rewrite EntryTag_small by lia.
    destruct (dense_insert_next (tags hec) v Hd) as [Hd' Hs'].
    split; [done|]. rewrite Hs'. lia.
Qed.

Lemma seeded_table_ok hec : seeded hec → table_ok (tags hec).
Proof.
  unfold seeded. intros ->. split_and!.
  - intros k1 k2 v H1 H2.
    apply lookup_singleton_Some in H1 as [<- _].
    by apply lookup_singleton_Some in H2 as [<- _].
  - intros k. rewrite map_size_singleton. split.
    + intros [v Hv]. apply lookup_singleton_Some in Hv as [<- _]. lia.
    + intros Hk. assert (k = 0) as -> by lia. rewrite lookup_singleton_eq. by eexists.
  - rewrite map_size_singleton. lia.
  - rewrite map_size_singleton. lia.
Qed.

Lemma negotiated_table_ok `{TagRules} h0 names hec :
  seeded h0 → negotiated h0 names hec → table_ok (tags hec).
Proof.
  intros Hs Hn. induction Hn as [|names hec v Hn IH].
  - by apply seeded_table_ok.
  - by apply NegotiateTag_table_ok.
Qed.

Lemma NegotiateTag_cfg `{TagRules} v hec : cfg (NegotiateTag v hec).2 = cfg hec.
Proof.
  unfold NegotiateTag. destruct (CheckTag v); [done|].
  by destruct (findTag v (tags hec)).
Qed.

(** A name in the table after a call was there before or is the one
    just negotiated. *)
Lemma NegotiateTag_holds `{TagRules} v hec w :
  holds_name (tags (NegotiateTag v hec).2) w → holds_name (tags hec) w ∨ w = v.
Proof.
  unfold NegotiateTag. destruct (CheckTag v); [by left|].
  destruct (findTag v (tags hec)); [by left|]. simpl.
  intros [k Hk]. apply lookup_insert_Some in Hk as [[_ <-]|[_ Hk]]; [by right|].
  left. by exists k.
Qed.

Lemma negotiated_holds `{TagRules} h0 names hec w :
  seeded h0 → negotiated h0 names hec →
  holds_name (tags hec) w → w = Tag (cfg h0) ∨ w ∈ names.
Proof.
  intros Hs Hn. induction Hn as [|names hec v Hn IH].
  - rewrite Hs. intros [k Hk]. apply lookup_singleton_Some in Hk as [_ <-]. by left.
  - intros Hw. apply NegotiateTag_holds in Hw as [Hw| ->].
    + destruct (IH Hw) as [?|?]; [by left|right]. set_solver.
    + right. set_solver.
Qed.

(** *** Rows of calls *)

Lemma NegotiateTags_holds `{TagRules} names hec w :
  holds_name (tags (NegotiateTags names hec).2) w →
  holds_name (tags hec) w ∨ w ∈ names.
Proof.
  revert hec. induction names as [|v rest IH]; intros hec; simpl; [by left|].
  destruct (NegotiateTag v hec) as [r h1] eqn:H1.
  destruct (NegotiateTags rest h1) as [rs h2] eqn:H2. simpl.
  intros Hw. specialize (IH h1). rewrite H2 in IH.
  destruct (IH Hw) as [Hh|Hin]; [|right; set_solver].
  replace h1 with (NegotiateTag v hec).2 in Hh by by rewrite H1.
  apply NegotiateTag_holds in Hh as [?| ->]; [by left|right; set_solver].
Qed.

Lemma fmap_seq_shift (f : nat → Z) n :
  f <$> seq 1 n = (λ i, f (S i)) <$> seq 0 n.
Proof. by rewrite <- fmap_S_seq, <- list_fmap_compose. Qed.

(** New, valid and distinct names, with room left in the table: each
    call returns the size the table had, and the table grows by one. *)
Lemma NegotiateTags_fresh `{TagRules} names hec :
  table_ok (tags hec) →
  NoDup names →
  Forall (λ v, CheckTag v = None) names →
  Forall (λ v, ¬ holds_name (tags hec) v) names →
  Z.of_nat (size (tags hec)) + Z.of_nat (length names) <= 2 ^ 16 →
  (NegotiateTags names hec).1 = (λ n, (n, None)) <$> sizesBefore names hec ∧
  sizesBefore names hec
    = (λ i, Z.of_nat (size (tags hec)) + Z.of_nat i) <$> seq 0 (length names) ∧
  table_ok (tags (NegotiateTags names hec).2) ∧
  size (tags (NegotiateTags names hec).2) = (size (tags hec) + length names)%nat.
Proof.
  revert hec. induction names as [|v rest IH]; intros hec Hok Hnd Hval Hnew Hroom.
  { simpl. split_and!; try done; lia. }
  apply NoDup_cons in Hnd as [Hv Hnd].
  apply Forall_cons in Hval as [Hcv Hval].
  apply Forall_cons in Hnew as [Hnv Hnew].
  simpl in Hroom.
  pose proof Hok as (Hu & Hd & Hsz).
  pose proof (NegotiateTag_new v hec Hcv Hnv) as HN.
  rewrite EntryTag_small in HN by lia.
  destruct (dense_insert_next (tags hec) v Hd) as [Hd' Hs'].
  pose proof (NegotiateTag_table_ok v hec Hok) as Hok1.
  simpl. rewrite HN in Hok1 |- *. simpl in Hok1 |- *.
  set (h1 := set_tags (<[Z.of_nat (size (tags hec)):=v]> (tags hec)) hec) in *.
  assert (Hs1 : size (tags h1) = S (size (tags hec))) by done.
  destruct (IH h1) as (Hr & Hsb & Hokf & Hsf); try done.
  - apply Forall_forall. intros w Hw [k Hk]. simpl in Hk.
    rewrite Forall_forall in Hnew.
    apply lookup_insert_Some in Hk as [[_ <-]|[_ Hk]]; [done|].
    apply (Hnew w Hw). by exists k.
  - rewrite Hs1. lia.
  - destruct (NegotiateTags rest h1) as [rs h2]. simpl in *.
    split_and!; try done.
    + by rewrite Hr.
    + rewrite Hsb, Hs1. f_equal; [lia|].
      rewrite fmap_seq_shift. apply list_fmap_ext. intros _ i _. lia.
    + rewrite Hsf, Hs1. lia.
Qed.

(** C5. From a connection as built, for any row of valid, distinct, new
    names that the 16-bit table still has room for: every call returns
    the size the table had just before it, these ids grow strictly, and
    any call whatever keeps each name at a single id. *)
Theorem NegotiateTag_assigns_next_id `{TagRules} h0 before hec names :
  seeded h0 → negotiated h0 before hec →
  NoDup names →
  Forall (λ v, CheckTag v = None) names →
  Forall (λ v, ¬ holds_name (tags hec) v) names →
  Z.of_nat (size (tags hec)) + Z.of_nat (length names) <= 2 ^ 16 →
  (NegotiateTags names hec).1 = (λ n, (n, None)) <$> sizesBefore names hec ∧
  (∀ i j a b,
     sizesBefore names hec !! i = Some a →
     sizesBefore names hec !! j = Some b →
     (i < j)%nat → a < b) ∧
  (∀ v h, names_unique (tags h) → names_unique (tags (NegotiateTag v h).2)).
Proof.
  intros Hs Hn Hnd Hval Hnew Hroom.
  pose proof (negotiated_table_ok _ _ _ Hs Hn) as Hok.
  destruct (NegotiateTags_fresh names hec Hok Hnd Hval Hnew Hroom)
    as (Hr & Hsb & _ & _).
  split_and!; [done| |intros; by apply NegotiateTag_names_unique].
  intros i j a b. rewrite Hsb, !list_lookup_fmap.
  intros Ha Hb Hij.
  destruct (seq 0 (length names) !! i) as [i'|] eqn:Hi; [|done].
  destruct (seq 0 (length names) !! j) as [j'|] eqn:Hj; [|done].
  apply lookup_seq in Hi as [-> _]. apply lookup_seq in Hj as [-> _].
  simpl in *. simplify_eq. lia.
Qed.

Lemma not_held_fresh gc x w : w ≠ Tag gc → ¬ holds_name (tags (fresh gc x)) w.
Proof.
  intros Hne [k Hk]. simpl in Hk.
  by apply lookup_singleton_Some in Hk as [_ ?].
Qed.

Lemma NegotiateTag_assigns_next_id_witness :
  let hec := fresh event_cfg accepted in
  (NegotiateTags (H := alnumRules) ["t1"; "t2"] hec).1 = [(1, None); (2, None)] ∧
  sizesBefore (H := alnumRules) ["t1"; "t2"] hec = [1; 2].
Proof.
  intros hec.
  assert (Hseed : seeded hec) by reflexivity.
  assert (Hnd : NoDup ["t1"; "t2"]).
  { apply NoDup_cons. split; [|apply NoDup_singleton].
    intros Hin. apply list_elem_of_singleton in Hin. discriminate Hin. }
  assert (Hval : Forall (λ v, alnumRules v = None) ["t1"; "t2"])
    by (repeat constructor).
  assert (Hnew : Forall (λ v, ¬ holds_name (tags hec) v) ["t1"; "t2"])
    by (repeat constructor; by apply not_held_fresh).
  assert (Hroom : Z.of_nat (size (tags hec)) + Z.of_nat (length ["t1"; "t2"]) <= 2 ^ 16).
  { simpl. rewrite map_size_singleton. lia. }
  assert (Hsb : sizesBefore (H := alnumRules) ["t1"; "t2"] hec = [1; 2])
    by (vm_compute; reflexivity).
  destruct (NegotiateTag_assigns_next_id (H := alnumRules) hec [] hec ["t1"; "t2"]
              Hseed (negotiated_nil hec) Hnd Hval Hnew Hroom) as (Hr & _ & _).
  split; [|exact Hsb]. rewrite Hr, Hsb. reflexivity.
Defined.

(** *** The names [t1, t2, ...] *)

Lemma pretty_N_char_alnum x : isAlnum (pretty_N_char x) = true.
Proof. unfold pretty_N_char. by repeat case_match. Qed.

Lemma pretty_N_go_alnum x s :
  all_bytes isAlnum s = true → all_bytes isAlnum (pretty_N_go x s) = true.
Proof.
  revert s. induction (N.lt_wf_0 x) as [x _ IH]. intros s Hs.
  destruct (decide (x = 0)%N) as [->|Hx].
  - by rewrite pretty_N_go_0.
  - rewrite pretty_N_go_step by lia. apply IH.
    + apply N.div_lt; lia.
    + simpl. by rewrite pretty_N_char_alnum.
Qed.

Lemma pretty_N_go_length (k : nat) x s :
  (x < 10 ^ N.of_nat k)%N →
  (String.length (pretty_N_go x s) <= String.length s + k)%nat.
Proof.
  revert x s. induction k as [|k IH]; intros x s Hx.
  - assert (x = 0%N) as -> by (simpl in Hx; lia). rewrite pretty_N_go_0. lia.
  - destruct (decide (x = 0)%N) as [->|Hx0].
    + rewrite pretty_N_go_0. lia.
    + rewrite pretty_N_go_step by lia.
      etrans; [apply IH|simpl; lia].
      apply N.Div0.div_lt_upper_bound.
      by rewrite Nat2N.inj_succ, N.pow_succ_r' in Hx.
Qed.

Lemma tagName_valid i : Z.of_nat i < 100000 → alnumRules (tagName i) = None.
Proof.
  intros Hi. unfold alnumRules, tagName.
  assert (Hal : all_bytes isAlnum ("t" +:+ pretty i) = true).
  { rewrite app_cons, app_nil_l. simpl.
    unfold pretty, pretty_nat, pretty, pretty_N.
    case_decide; [done|]. by apply pretty_N_go_alnum. }
  assert (Hlen : (String.length ("t" +:+ pretty i) <= 6)%nat).
  { rewrite app_cons, app_nil_l. simpl.
    unfold pretty, pretty_nat, pretty, pretty_N.
    case_decide; [simpl; lia|].
    pose proof (pretty_N_go_length 5 (N.of_nat i) "") as Hl. simpl in Hl.
    assert (N.of_nat i < 10 ^ 5)%N by lia. specialize (Hl ltac:(done)). lia. }
  rewrite Hal.
  destruct (String.length ("t" +:+ pretty i)) as [|n] eqn:Hn.
  { by rewrite app_cons in Hn. }
  replace (S n =? 0)%nat with false by done.
  destruct (Nat.ltb_spec 4096 (S n)); [lia|done].
Qed.

Lemma tagName_inj i j : tagName i = tagName j → i = j.
Proof.
  unfold tagName. intros Heq.
  apply (inj (String.app "t")) in Heq. by apply (inj pretty) in Heq.
Qed.

Lemma tagName_not_default i : tagName i ≠ "syslog".
Proof. unfold tagName. rewrite app_cons. discriminate. Qed.

Lemma tagNames_NoDup a n : NoDup (tagNames a n).
Proof.
  unfold tagNames. apply NoDup_fmap_2; [|apply NoDup_seq].
  intros i j. apply tagName_inj.
Qed.

Lemma tagNames_valid a n :
  Z.of_nat a + Z.of_nat n <= 100000 → Forall (λ v, alnumRules v = None) (tagNames a n).
Proof.
  intros Hle. unfold tagNames. apply Forall_fmap, Forall_forall.
  intros i Hi. apply elem_of_seq in Hi. simpl. apply tagName_valid. lia.
Qed.

Lemma size_fresh gc x : size (tags (fresh gc x)) = 1%nat.
Proof. apply map_size_singleton. Qed.

Lemma tagNames_new gc x a n :
  Tag gc = "syslog" →
  Forall (λ v, ¬ holds_name (tags (fresh gc x)) v) (tagNames a n).
Proof.
  intros Hg. unfold tagNames. apply Forall_fmap, Forall_forall. intros i _.
  apply not_held_fresh. rewrite Hg. apply tagName_not_default.
Qed.

Lemma length_tagNames a n : length (tagNames a n) = n.
Proof. unfold tagNames. by rewrite length_fmap, length_seq. Qed.

(** The table after [t1 .. tn] were negotiated on a fresh connection. *)
Lemma tagNames_table n :
  Z.of_nat n < 2 ^ 16 →
  let hec := (NegotiateTags (H := alnumRules) (tagNames 1 n)
                (fresh event_cfg accepted)).2 in
  table_ok (tags hec) ∧ size (tags hec) = S n ∧
  ∀ w, holds_name (tags hec) w → w = "syslog" ∨ ∃ i, (1 <= i <= n)%nat ∧ w = tagName i.
Proof.
  intros Hn hec. subst hec.
  destruct (NegotiateTags_fresh (H := alnumRules)
              (tagNames 1 n) (fresh event_cfg accepted))
    as (_ & _ & Hok & Hsz).
  - by apply seeded_table_ok.
  - apply tagNames_NoDup.
  - apply tagNames_valid. lia.
  - by apply tagNames_new.
  - rewrite length_tagNames, size_fresh. lia.
  - split; [exact Hok|]. split.
    + rewrite Hsz, length_tagNames, size_fresh. lia.
    + intros w Hh. apply NegotiateTags_holds in Hh as [[k Hk]|Hin].
      * left. change (tags (fresh event_cfg accepted)) with ({[0 := "syslog"]} : gmap Z string) in Hk.
        by apply lookup_singleton_Some in Hk as [_ <-].
      * right. unfold tagNames in Hin.
        apply list_elem_of_fmap in Hin as (i & -> & Hi).
        apply elem_of_seq in Hi. exists i. split; [lia|reflexivity].
Qed.

Lemma tagName_new_after n m :
  Z.of_nat n < 2 ^ 16 → (n < m)%nat →
  ¬ holds_name
      (tags (NegotiateTags (H := alnumRules) (tagNames 1 n)
               (fresh event_cfg accepted)).2) (tagName m).
Proof.
  intros Hn Hm Hh. destruct (tagNames_table n Hn) as (_ & _ & Hw).
  destruct (Hw _ Hh) as [Hd|(i & Hi & Heq)].
  - by apply tagName_not_default in Hd.
  - apply tagName_inj in Heq. lia.
Qed.

(** The 65537th name. With the table full, the id computed from its
    size wraps to 0: the call returns 0, which is neither the size
    (65536) nor more than the id returned just before (65535). *)
Lemma NegotiateTag_wraps_when_full :
  Z.of_nat (size (tags crowded)) = 65536 ∧
  alnumRules (tagName (Z.to_nat 65536)) = None ∧
  ¬ holds_name (tags crowded) (tagName (Z.to_nat 65536)) ∧
  (NegotiateTag (H := alnumRules) (tagName (Z.to_nat 65535))
     (NegotiateTags (H := alnumRules) (tagNames 1 (Z.to_nat 65534))
        (fresh event_cfg accepted)).2).1 = (65535, None) ∧
  (NegotiateTag (H := alnumRules) (tagName (Z.to_nat 65536)) crowded).1 = (0, None).
Proof.
  assert (H5 : Z.of_nat (Z.to_nat 65535) < 2 ^ 16) by lia.
  assert (H4 : Z.of_nat (Z.to_nat 65534) < 2 ^ 16) by lia.
  destruct (tagNames_table _ H5) as (_ & Hsz & _). fold crowded in Hsz.
  destruct (tagNames_table _ H4) as (_ & Hsz4 & _).
  assert (Hnew : ¬ holds_name (tags crowded) (tagName (Z.to_nat 65536)))
    by (apply tagName_new_after; lia).
  assert (Hnew4 := tagName_new_after (Z.to_nat 65534) (Z.to_nat 65535) H4 ltac:(lia)).
  assert (Hval : alnumRules (tagName (Z.to_nat 65536)) = None)
    by (apply tagName_valid; lia).
  assert (Hval4 : alnumRules (tagName (Z.to_nat 65535)) = None)
    by (apply tagName_valid; lia).
  split; [rewrite Hsz; lia|].
  split; [exact Hval|]. split; [exact Hnew|]. split.
  - rewrite (NegotiateTag_new (H := alnumRules) _ _ Hval4 Hnew4).
    cbn [fst]. rewrite Hsz4, EntryTag_small by lia. f_equal; lia.
  - rewrite (NegotiateTag_new (H := alnumRules) _ _ Hval Hnew).
    cbn [fst]. rewrite Hsz.
    replace (Z.of_nat (S (Z.to_nat 65535))) with (2 ^ 16) by lia.
    by rewrite EntryTag_full.
Qed.

(** *** Asking twice *)

(** C6. On any connection reached from construction, negotiating a name
    twice returns the same id both times, and the second call leaves the
    connection as the first left it; for a valid name neither call
    fails, and the id is the only one holding the name. *)
Theorem NegotiateTag_idempotent `{TagRules} h0 before hec v :
  seeded h0 → negotiated h0 before hec →
  NegotiateTag v (NegotiateTag v hec).2
    = ((NegotiateTag v hec).1, (NegotiateTag v hec).2) ∧
  (CheckTag v = None →
     (NegotiateTag v hec).1.2 = None ∧
     ∀ k, tags (NegotiateTag v hec).2 !! k = Some v ↔ k = (NegotiateTag v hec).1.1).
Proof.
  intros Hs Hn.
  pose proof (negotiated_table_ok _ _ _ Hs Hn) as Hok.
  pose proof (NegotiateTag_table_ok v hec Hok) as (Hu1 & _).
  destruct (CheckTag v) as [e|] eqn:Hc.
  { rewrite (NegotiateTag_refused v hec e Hc). simpl.
    by rewrite (NegotiateTag_refused v hec e Hc). }
  assert (Hheld : tags (NegotiateTag v hec).2 !! (NegotiateTag v hec).1.1 = Some v
                  ∧ (NegotiateTag v hec).1.2 = None).
  { unfold NegotiateTag. rewrite Hc.
    destruct (findTag v (tags hec)) as [k|] eqn:Hf; simpl.
    - split; [by apply findTag_Some|done].
    - by rewrite lookup_insert_eq. }
  destruct Hheld as [Hk He]. split.
  - rewrite (NegotiateTag_known v _ _ Hc Hu1 Hk).
    destruct (NegotiateTag v hec) as [[k e] h1]. simpl in *. by subst.
  - intros _. split; [done|]. intros k. split; [|by intros ->].
    intros Hk'. by apply (Hu1 _ _ v).
Qed.

Lemma NegotiateTag_idempotent_witness :
  let hec := fresh event_cfg accepted in
  (NegotiateTag (H := alnumRules) "t1" hec).1 = (1, None) ∧
  (NegotiateTag (H := alnumRules) "t1" (NegotiateTag (H := alnumRules) "t1" hec).2).1
    = (1, None).
Proof.
  intros hec.
  destruct (NegotiateTag_idempotent (H := alnumRules) hec [] hec "t1"
              eq_refl (negotiated_nil hec)) as [Htwice _].
  rewrite Htwice. split; reflexivity.
Defined.

(** A name the backend rules refuse is refused again, and nothing is
    stored for it. *)
Example NegotiateTag_refuses_twice :
  let hec := fresh event_cfg accepted in
  NegotiateTag (H := alnumRules) "bad tag" hec
    = ((0, Some "forbidden character in tag"), hec).
Proof. reflexivity. Qed.

(** *** Looking a name up *)

Lemma GetTag_absent v hec :
  ¬ holds_name (tags hec) v → GetTag v hec = ((0, Some "not found"), hec).
Proof.
  intros Hn. unfold GetTag.
  destruct (findTag v (tags hec)) as [k|] eqn:Hf; [|done].
  destruct Hn. exists k. by apply findTag_Some.
Qed.

Lemma GetTag_present v hec k :
  names_unique (tags hec) → tags hec !! k = Some v →
  GetTag v hec = ((k, None), hec).
Proof. intros Hu Hk. unfold GetTag. by rewrite (findTag_unique v _ k Hu Hk). Qed.

(** C7, as the code has it. A name that was never negotiated and is not
    the default tag the connection was built with is not found: [GetTag]
    returns the error "not found" and the connection, its table
    included, is as before. *)
Theorem GetTag_never_negotiated `{TagRules} h0 names hec v :
  seeded h0 → negotiated h0 names hec →
  v ∉ names → v ≠ Tag (cfg h0) →
  GetTag v hec = ((0, Some "not found"), hec).
Proof.
  intros Hs Hn Hv Hd. apply GetTag_absent. intros Hh.
  destruct (negotiated_holds _ _ _ _ Hs Hn Hh) as [?|?]; done.
Qed.

Lemma GetTag_never_negotiated_witness :
  let hec := fresh event_cfg accepted in
  GetTag "t2" (NegotiateTag (H := alnumRules) "t1" hec).2
  = ((0, Some "not found"), (NegotiateTag (H := alnumRules) "t1" hec).2).
Proof.
  intros hec.
  apply (GetTag_never_negotiated (H := alnumRules) hec ([] ++ ["t1"]) _ "t2").
  - reflexivity.
  - apply negotiated_snoc, negotiated_nil.
  - intros Hin. apply list_elem_of_singleton in Hin. discriminate Hin.
  - discriminate.
Defined.

(** The default tag is in the table from construction: it is found
    though no call ever negotiated it. *)
Lemma GetTag_finds_default_tag :
  let hec := fresh event_cfg accepted in
  newHecConn (loopback accepted) "generator" event_cfg 0 = (Some hec, None) ∧
  negotiated (H := alnumRules) hec [] hec ∧
  GetTag "syslog" hec = ((0, None), hec).
Proof.
  intros hec. split; [reflexivity|]. split; [constructor|].
  apply GetTag_present; [|reflexivity].
  by apply seeded_table_ok.
Qed.

(** ** Searching a text *)

Lemma prefix_app s t : String.prefix s (s +:+ t) = true.
Proof.
  induction s as [|c s IH]; [by destruct t|].
  rewrite app_cons. simpl. by destruct (ascii_dec c c).
Qed.

Lemma containsb_complete needle hay : contains needle hay → containsb needle hay = true.
Proof.
  intros (pre & post & ->). induction pre as [|c pre IH].
  - rewrite app_nil_l.
    assert (Hu : ∀ h, String.prefix needle h = true → containsb needle h = true)
      by (intros [|c h] Hp; cbn [containsb]; by rewrite Hp).
    apply Hu, prefix_app.
  - rewrite app_cons. simpl. rewrite IH. apply orb_true_r.
Qed.

(** ** The upload worker and Close *)

Lemma worker_runs_wtr h h1 :
  worker_runs h h1 → wtr h1 = wtr h ∧ tags h1 = tags h ∧ cfg h1 = cfg h.
Proof.
  induction 1 as [|h h1 h2 Hs _ IH]; [done|].
  apply httpRoutine_step_wtr in Hs. destruct Hs as (? & ? & ?), IH as (? & ? & ?).
  split_and!; congruence.
Qed.

Lemma awaits_step x h h1 : awaits x h → httpRoutine_step h = Some h1 → awaits x h1.
Proof.
  unfold awaits, httpRoutine_step.
  destruct (routine h) eqn:Hr; try done.
  - intros [-> ->]. simpl. by intros [= <-].
  - intros ->. simpl. by intros [= <-].
Qed.

Lemma awaits_runs x h h1 : awaits x h → worker_runs h h1 → awaits x h1.
Proof. intros Ha Hr. induction Hr; eauto using awaits_step. Qed.

Lemma awaits_recv x h v c :
  awaits x h → chan_recv (errch h) = Some (v, c) →
  v = httpRoutine_post x ∧ drained (set_worker c (routine h) h).
Proof.
  unfold awaits, drained, chan_recv.
  destruct (routine h) eqn:Hr; simpl; try done.
  - by intros [_ ->].
  - intros ->. simpl. intros [= <- <-]. simpl. tauto.
  - intros ->. simpl. intros [= <- <-]. simpl. tauto.
Qed.

Lemma drained_step h h1 : drained h → httpRoutine_step h = Some h1 → drained h1.
Proof.
  unfold drained, httpRoutine_step. intros [Hb [[Hr Hc]|[Hr Hc]]]; rewrite Hr; [|done].
  intros [= <-]. simpl. tauto.
Qed.

Lemma drained_runs h h1 : drained h → worker_runs h h1 → drained h1.
Proof. intros Hd Hr. induction Hr; eauto using drained_step. Qed.

Lemma drained_recv h v c :
  drained h → chan_recv (errch h) = Some (v, c) →
  v = None ∧ drained (set_worker c (routine h) h).
Proof.
  unfold drained, chan_recv. intros [Hb Hrc]. rewrite Hb.
  destruct (closed (errch h)) eqn:Hc; [|done].
  intros [= <- <-]. simpl. rewrite Hc. naive_solver.
Qed.

Lemma chan_ok_step h h1 : chan_ok h → httpRoutine_step h = Some h1 → chan_ok h1.
Proof.
  unfold chan_ok, httpRoutine_step. destruct (routine h); try done.
  - intros ->. simpl. by intros [= <-].
  - intros _ [= <-]. done.
Qed.

Lemma chan_ok_runs h h1 : chan_ok h → worker_runs h h1 → chan_ok h1.
Proof. intros Hd Hr. induction Hr; eauto using chan_ok_step. Qed.

(** Whatever a receive gets on a well-formed connection, the channel is
    empty for good afterwards. *)
Lemma chan_ok_recv h v c :
  chan_ok h → chan_recv (errch h) = Some (v, c) →
  drained (set_worker c (routine h) h).
Proof.
  unfold chan_ok, drained, chan_recv.
  destruct (routine h) eqn:Hr; simpl.
  - by intros ->.
  - by intros ->.
  - intros Hc. destruct (buf (errch h)) eqn:Hb; try rewrite Hc; [|done].
    intros [= <- <-]. simpl. naive_solver.
  - intros Hc. destruct (buf (errch h)) eqn:Hb; try rewrite Hc;
      intros [= <- <-]; simpl; try rewrite Hc; naive_solver.
Qed.

Lemma Close_returns_drained hec v h' :
  chan_ok hec → Close_returns hec v h' → drained h' ∧ is_Some (wtr h').
Proof.
  intros Hok Hc. destruct Hc as [hec p h1 v c Hw Hr Hrecv].
  split.
  - eapply chan_ok_recv; [|done]. eapply chan_ok_runs; [|done]. done.
  - simpl. apply worker_runs_wtr in Hr as (-> & _). by eexists.
Qed.

Lemma drained_Close_returns hec v h' :
  drained hec → Close_returns hec v h' → v = None ∧ drained h' ∧ is_Some (wtr h').
Proof.
  intros Hd Hc. destruct Hc as [hec p h1 v c Hw Hr Hrecv].
  assert (Hd1 : drained h1) by (eapply drained_runs; [|done]; done).
  destruct (drained_recv _ _ _ Hd1 Hrecv) as [-> Hd'].
  split_and!; [done|done|].
  simpl. apply worker_runs_wtr in Hr as (-> & _). by eexists.
Qed.

Lemma drained_Close hec :
  drained hec → is_Some (wtr hec) → ∃ h', Close hec = (Returned None, h').
Proof.
  intros [Hb Hrc] [p Hp]. unfold Close. rewrite Hp. simpl.
  unfold chan_recv at 1. simpl. rewrite Hb.
  destruct Hrc as [[Hr Hc]|[Hr Hc]]; rewrite Hc; [|eauto].
  unfold httpRoutine_step. simpl. rewrite Hr.
  unfold chan_recv. simpl. rewrite Hb. eauto.
Qed.

(** While the outcome is awaited, [Close] returns it, however the
    goroutine is scheduled. *)
Lemma awaits_Close_returns x hec v h' :
  awaits x hec → Close_returns hec v h' → v = httpRoutine_post x.
Proof.
  intros Ha Hc. destruct Hc as [hec p h1 v c Hw Hr Hrecv].
  assert (Ha1 : awaits x h1) by (eapply awaits_runs; [|done]; done).
  by destruct (awaits_recv _ _ _ _ Ha1 Hrecv).
Qed.

Lemma awaits_Close x hec :
  awaits x hec → is_Some (wtr hec) →
  ∃ h', Close hec = (Returned (httpRoutine_post x), h') ∧
        Close_returns hec (httpRoutine_post x) h'.
Proof.
  intros Ha [p Hp].
  assert (∃ h1 c, worker_runs (set_wtr (Some (pipe_Close p)) hec) h1 ∧
                  chan_recv (errch h1) = Some (httpRoutine_post x, c) ∧
                  await 2 (set_wtr (Some (pipe_Close p)) hec)
                  = (Returned (httpRoutine_post x), set_worker c (routine h1) h1))
    as (h1 & c & Hr & Hrecv & Haw).
  { unfold awaits in Ha. destruct (routine hec) eqn:Hrt; [done|..].
    - destruct Ha as [-> He].
      eexists (set_worker _ Posted (set_wtr (Some (pipe_Close p)) hec)), _.
      split_and!.
      + econstructor; [|constructor]. unfold httpRoutine_step. simpl.
        rewrite Hrt, He. reflexivity.
      + reflexivity.
      + simpl. rewrite He. simpl. unfold httpRoutine_step. simpl.
        rewrite Hrt, He. reflexivity.
    - eexists (set_wtr (Some (pipe_Close p)) hec), _. split_and!.
      + constructor.
      + simpl. rewrite Ha. reflexivity.
      + simpl. rewrite Ha. reflexivity.
    - eexists (set_wtr (Some (pipe_Close p)) hec), _. split_and!.
      + constructor.
      + simpl. rewrite Ha. reflexivity.
      + simpl. rewrite Ha. reflexivity. }
  eexists. split.
  - unfold Close. rewrite Hp. exact Haw.
  - by econstructor.
Qed.

(** *** The text of a refusal *)

Lemma statusError_text r :
  contains (pretty (StatusCode r)) (statusError r) ∧
  contains (Status r) (statusError r) ∧
  ((readLimited 512 (Body r)).2 = None →
     contains (take_bytes 512 (content (Body r))) (statusError r)).
Proof.
  unfold statusError. split_and!.
  - apply contains_app_r, contains_app_l, contains_refl.
  - do 3 apply contains_app_r. apply contains_app_l, contains_refl.
  - intros Hread. do 6 apply contains_app_r.
    unfold readLimited in *.
    destruct (Nat.leb_spec 512 (String.length (content (Body r)))) as [Hl|Hl].
    + apply contains_refl.
    + simpl in Hread. rewrite Hread, take_all by lia. apply contains_refl.
Qed.

Lemma httpRoutine_post_nil r :
  httpRoutine_post (Responds r) = None ↔ StatusCode r = 200.
Proof.
  simpl. destruct (Z.eqb_spec (StatusCode r) 200); split; done.
Qed.

Lemma statusError_exact r :
  statusError r
  = statusHeading r +:+
      match (readLimited 512 (Body r)).2 with
      | None => take_bytes 512 (content (Body r))
      | Some _ => ""
      end.
Proof.
  unfold statusError, statusHeading, readLimited. rewrite !app_assoc.
  destruct (Nat.leb_spec 512 (String.length (content (Body r)))) as [Hl|Hl];
    cbn [fst snd].
  - done.
  - destruct (readErr (Body r)); [done|]. by rewrite take_all by lia.
Qed.

(** C4, as the code has it. When the request is answered, the first
    [Close] returns nil exactly when the status is 200. For any other
    status it returns an error whose text holds the status code and the
    status line. Provided the body could be read without error, the
    text is the heading followed by the first at most 512 bytes of the
    body; when that read fails, the text is the heading alone, with
    nothing of the body. *)
Theorem Close_reports_status hec r :
  is_Some (wtr hec) → awaits (Responds r) hec →
  (∃ v h', Close hec = (Returned v, h') ∧ Close_returns hec v h') ∧
  ∀ v h', Close_returns hec v h' →
    (v = None ↔ StatusCode r = 200) ∧
    (StatusCode r ≠ 200 →
       ∃ text, v = Some text ∧
         contains (pretty (StatusCode r)) text ∧
         contains (Status r) text ∧
         ((readLimited 512 (Body r)).2 = None →
            text = statusHeading r +:+ take_bytes 512 (content (Body r)) ∧
            contains (take_bytes 512 (content (Body r))) text) ∧
         ((readLimited 512 (Body r)).2 ≠ None → text = statusHeading r)).
Proof.
  intros Hw Ha. split.
  { destruct (awaits_Close _ _ Ha Hw) as (h' & HC & HR). eauto. }
  intros v h' HR. rewrite (awaits_Close_returns _ _ _ _ Ha HR).
  split; [apply httpRoutine_post_nil|].
  intros Hne. exists (statusError r).
  destruct (statusError_text r) as (Hcode & Hstatus & Hbody).
  split_and!; try done.
  - simpl. by destruct (Z.eqb_spec (StatusCode r) 200).
  - intros Hread. split; [|by apply Hbody].
    by rewrite statusError_exact, Hread.
  - intros Hread. rewrite statusError_exact.
    destruct ((readLimited 512 (Body r)).2); [|done]. by rewrite app_nil_r.
Qed.

Lemma Close_reports_status_witness :
  let hec := fresh raw_cfg (Responds serverError) in
  ∃ text, (Close hec).1 = Returned (Some text) ∧
          contains "500" text ∧ contains "server error" text.
Proof.
  intros hec.
  assert (Hw : is_Some (wtr hec)) by (by eexists).
  assert (Ha : awaits (Responds serverError) hec) by (split; reflexivity).
  destruct (Close_reports_status hec serverError Hw Ha) as [(v & h' & HC & HR) Hall].
  destruct (Hall v h' HR) as [_ Htext].
  destruct Htext as (text & -> & H500 & _ & Hbody & _); [discriminate|].
  exists text. split; [by rewrite HC|]. split; [exact H500|].
  by apply Hbody.
Defined.

(** The answer 500 with the connection lost while its body is read: the
    error holds the status but none of the body that had arrived. *)
Lemma Close_omits_unread_body :
  let hec := fresh raw_cfg (Responds serverErrorCut) in
  (Close hec).1
    = Returned (Some ("invalid status 500 (500 Internal Server Error)" +:+ nl)) ∧
  take_bytes 512 (content (Body serverErrorCut)) = "server error" ∧
  ¬ contains "server error"
      ("invalid status 500 (500 Internal Server Error)" +:+ nl).
Proof.
  intros hec. split; [reflexivity|]. split; [reflexivity|].
  intros Hc. apply containsb_complete in Hc. discriminate Hc.
Qed.

(** C10. Once [Close] has returned, whatever it returned, every later
    [Close] returns nil, under any scheduling of the goroutine; and it
    does return. *)
Theorem Close_again_returns_nil hec v1 h1 :
  chan_ok hec → Close_returns hec v1 h1 →
  (∃ h2, Close h1 = (Returned None, h2)) ∧
  ∀ vs h2, Close_calls h1 vs h2 → Forall (λ v, v = None) vs.
Proof.
  intros Hok HR.
  destruct (Close_returns_drained _ _ _ Hok HR) as [Hd Hw].
  split; [by apply drained_Close|].
  intros vs h2 Hcalls. clear HR Hok.
  induction Hcalls as [|h v h' vs h2 HR _ IH]; [constructor|].
  destruct (drained_Close_returns _ _ _ Hd HR) as (-> & Hd' & Hw').
  constructor; [done|]. by apply IH.
Qed.

Lemma Close_again_returns_nil_witness :
  let hec := fresh raw_cfg (Responds serverError) in
  (Close hec).1
    = Returned (Some ("invalid status 500 (500 Internal Server Error)" +:+ nl
                      +:+ "server error")) ∧
  (Close (Close hec).2).1 = Returned None.
Proof.
  intros hec. split; [reflexivity|].
  assert (Hw : is_Some (wtr hec)) by (by eexists).
  assert (Ha : awaits (Responds serverError) hec) by (split; reflexivity).
  assert (Hok : chan_ok hec) by reflexivity.
  destruct (awaits_Close _ _ Ha Hw) as (h' & HC & HR).
  destruct (Close_again_returns_nil hec _ h' Hok HR) as [(h2 & H2) _].
  rewrite HC. simpl. by rewrite H2.
Defined.

(** ** Event mode *)

Lemma set_wtr_same hec : set_wtr (wtr hec) hec = hec.
Proof. by destruct hec. Qed.

(** [setData], the helper that chooses how the payload goes into the
    record, quotes whatever does not look like an object, and leaves
    its switch alone. *)
Lemma setData_quotes_plain_text data (osc : bool) :
  looksLikeObject data = false → setData data osc = (json.appendString data, osc).
Proof. unfold setData. by intros ->. Qed.

Example setData_hello : setData "hello" false = (quoted "hello", false).
Proof. reflexivity. Qed.

(** Object-shaped payloads go out as they are and quoted, turn about. *)
Lemma setData_alternates data :
  looksLikeObject data = true →
  setData data false = (data, true) ∧
  setData data true = (json.appendString data, false).
Proof. unfold setData. by intros ->. Qed.

(** C1, what the code does. [sendEvent] does not go through [setData]:
    it hands the payload to the encoder as a raw JSON message. A payload
    that is not itself a JSON document (such as [hello]) makes the
    write fail with the encoder's error, and nothing reaches the
    stream. *)
Theorem event_write_of_plain_text_fails `{FloatFormat} hec e :
  modeHECRaw (cfg hec) = false →
  entry.Data e ≠ "" →
  json.Valid (entry.Data e) = false →
  WriteEntry hec (Some e) = (Returned (Some MarshalerError), hec).
Proof.
  intros Hm Hne Hv. unfold WriteEntry, sendEvent, Encode, marshal_hecent.
  rewrite Hm. simpl.
  destruct (entry.Data e) as [|c d] eqn:Hd; [done|]. simpl.
  unfold json.Valid in Hv.
  destruct (json.appendCompact (String c d)); [done|].
  by rewrite set_wtr_same.
Qed.

Lemma event_write_of_plain_text_fails_witness :
  let hec := fresh event_cfg accepted in
  looksLikeObject "hello" = false ∧
  WriteEntry (H := wholeFormat) hec (Some (sample "hello"))
    = (Returned (Some MarshalerError), hec).
Proof.
  intros hec. split; [reflexivity|].
  apply (event_write_of_plain_text_fails (H := wholeFormat) hec (sample "hello")).
  - reflexivity.
  - discriminate.
  - reflexivity.
Defined.

(** A payload that is a JSON document, of whatever shape, is embedded
    as it is (compacted), not quoted. *)
Lemma event_write_embeds_json `{FloatFormat} hec e b h' :
  modeHECRaw (cfg hec) = false →
  entry.Data e ≠ "" →
  json.appendCompact (entry.Data e) = Some b →
  WriteEntry hec (Some e) = (Returned None, h') →
  ∃ rest, stream h' = stream hec +:+ "{" +:+ member "event" b +:+ rest.
Proof.
  intros Hm Hne Hb. unfold WriteEntry, sendEvent, Encode, marshal_hecent, stream.
  rewrite Hm. simpl.
  destruct (entry.Data e) as [|c d] eqn:Hd; [done|]. simpl. rewrite Hb.
  destruct (if (timeFloat (entry.TS e) =? 0)%float then _ else _) as [er|tm].
  { destruct (wtr hec); intros; simplify_eq. }
  destruct (wtr hec) as [p|]; [|done].
  destruct (pipe_Write p _) as [[n err] p'] eqn:Hw. intros; simplify_eq. simpl.
  apply pipe_Write_ok in Hw as [-> _].
  unfold object, member. simpl.
  destruct (tm ++ _) as [|m ms].
  - eexists. rewrite !app_assoc. reflexivity.
  - eexists. rewrite !app_assoc. reflexivity.
Qed.

Example event_write_number :
  stream (WriteEntry (H := wholeFormat) (fresh event_cfg accepted)
            (Some (sample "123"))).2
  = object [member "event" "123"; member "time" "5";
            member "sourcetype" (quoted "syslog")] +:+ nl.
Proof. reflexivity. Qed.

Example event_write_string :
  stream (WriteEntry (H := wholeFormat) (fresh event_cfg accepted)
            (Some (sample (quoted "hello")))).2
  = object [member "event" (quoted "hello"); member "time" "5";
            member "sourcetype" (quoted "syslog")] +:+ nl.
Proof. reflexivity. Qed.

(** ** Construction *)

(** C3, as the code has it. When a step of construction fails,
    [newHecConn] returns that error, and what it returns beside it is no
    connection or one with neither stream nor worker. *)
Theorem newHecConn_fails net nm gc tmo e :
  probe_fails net gc e →
  (newHecConn net nm gc tmo).2 = Some e ∧
  match (newHecConn net nm gc tmo).1 with
  | None => True
  | Some hec => wtr hec = None ∧ routine hec = Idle ∧ errch hec = make_chan
  end.
Proof.
  intros Hf. unfold newHecConn, test.
  destruct Hf as [e Hp|u e Hp Hr|u a e Hp Hr Hd|u a c e Hp Hr Hd Hs
                 |u a c [ip port] e Hp Hr Hd Hs Hc]; rewrite Hp; simpl; [done|..].
  - by rewrite Hr.
  - by rewrite Hr, Hd.
  - by rewrite Hr, Hd, Hs.
  - rewrite Hr, Hd, Hs. simpl. by rewrite Hc.
Qed.

Lemma newHecConn_fails_witness :
  probe_fails refusing event_cfg "connect: connection refused" ∧
  (newHecConn refusing "generator" event_cfg 0).2
    = Some "connect: connection refused" ∧
  (wtr <$> (newHecConn refusing "generator" event_cfg 0).1) = Some None.
Proof.
  assert (Hf : probe_fails refusing event_cfg "connect: connection refused").
  { eapply (fails_dial refusing event_cfg collector); reflexivity. }
  split; [exact Hf|].
  destruct (newHecConn_fails refusing "generator" event_cfg 0 _ Hf) as [He Hc].
  split; [exact He|].
  destruct (newHecConn refusing "generator" event_cfg 0).1 as [h|] eqn:Hn;
    [|discriminate Hn].
  simpl. by destruct Hc as [-> _].
Defined.

(** A local address whose host part is not an IP literal does not stop
    construction: the connection is built, with no source address. *)
Lemma newHecConn_accepts_unparsed_address :
  let net := zoned accepted in
  DialTCP net "[fe80::2%eth0]:8088"
    = inr {| LocalAddr := "[fe80::1%eth0]:54321"; closeErr := None |} ∧
  SplitHostPort net "[fe80::1%eth0]:54321" = inr ("fe80::1%eth0", "54321") ∧
  ParseIP net "fe80::1%eth0" = None ∧
  (newHecConn net "generator" event_cfg 0).2 = None ∧
  (src <$> (newHecConn net "generator" event_cfg 0).1) = Some None ∧
  (routine <$> (newHecConn net "generator" event_cfg 0).1) = Some (Running accepted).
Proof. repeat split; reflexivity. Qed.

(** *** Rows of calls, continued *)

Lemma NegotiateTags_negotiated `{TagRules} h0 before hec names :
  negotiated h0 before hec →
  negotiated h0 (before ++ names) (NegotiateTags names hec).2.
Proof.
  revert before hec. induction names as [|v rest IH]; intros before hec Hn.
  - simpl. by rewrite List.app_nil_r.
  - simpl. destruct (NegotiateTag v hec) as [r h1] eqn:H1.
    destruct (NegotiateTags rest h1) as [rs h2] eqn:H2. simpl.
    replace (before ++ v :: rest) with ((before ++ [v]) ++ rest)
      by by rewrite <- (assoc_L (++)).
    specialize (IH (before ++ [v]) h1). rewrite H2 in IH. apply IH.
    replace h1 with (NegotiateTag v hec).2 by by rewrite H1.
    by constructor.
Qed.

(** New names, with room for all of them, leave every entry in place. *)
Lemma NegotiateTags_fresh_keeps `{TagRules} names hec k w :
  table_ok (tags hec) →
  NoDup names →
  Forall (λ v, CheckTag v = None) names →
  Forall (λ v, ¬ holds_name (tags hec) v) names →
  Z.of_nat (size (tags hec)) + Z.of_nat (length names) <= 2 ^ 16 →
  tags hec !! k = Some w →
  tags (NegotiateTags names hec).2 !! k = Some w.
Proof.
  revert hec. induction names as [|v rest IH]; intros hec Hok Hnd Hval Hnew Hroom Hk;
    [done|].
  apply NoDup_cons in Hnd as [Hv Hnd].
  apply Forall_cons in Hval as [Hcv Hval].
  apply Forall_cons in Hnew as [Hnv Hnew].
  simpl in Hroom.
  pose proof Hok as (Hu & Hd & Hsz).
  pose proof (NegotiateTag_new v hec Hcv Hnv) as HN.
  rewrite EntryTag_small in HN by lia.
  destruct (dense_insert_next (tags hec) v Hd) as [Hd' Hs'].
  pose proof (NegotiateTag_table_ok v hec Hok) as Hok1.
  simpl. rewrite HN in Hok1 |- *. simpl in Hok1.
  set (h1 := set_tags (<[Z.of_nat (size (tags hec)):=v]> (tags hec)) hec) in *.
  assert (Hs1 : size (tags h1) = S (size (tags hec))) by done.
  specialize (IH h1). destruct (NegotiateTags rest h1) as [rs h2]. simpl in *.
  apply IH; try done.
  - apply Forall_forall. intros u Hu' [j Hj].
    rewrite Forall_forall in Hnew.
    apply lookup_insert_Some in Hj as [[_ <-]|[_ Hj]]; [done|].
    apply (Hnew u Hu'). by exists j.
  - lia.
  - rewrite lookup_insert_ne; [done|]. intros <-.
    assert (Hin : is_Some (tags hec !! Z.of_nat (size (tags hec)))) by by eexists.
    apply Hd in Hin. lia.
Qed.

Lemma tagNames_reach n :
  Z.of_nat n < 2 ^ 16 →
  let hec := (NegotiateTags (H := alnumRules) (tagNames 1 n)
                (fresh event_cfg accepted)).2 in
  negotiated (H := alnumRules) (fresh event_cfg accepted) (tagNames 1 n) hec ∧
  tags hec !! 0 = Some "syslog".
Proof.
  intros Hn hec. subst hec. split.
  - apply (NegotiateTags_negotiated (H := alnumRules) _ [] _ (tagNames 1 n)).
    constructor.
  - apply NegotiateTags_fresh_keeps.
    + by apply seeded_table_ok.
    + apply tagNames_NoDup.
    + apply tagNames_valid. lia.
    + by apply tagNames_new.
    + rewrite length_tagNames, size_fresh. lia.
    + reflexivity.
Qed.

(** * Further properties of the transport *)

(** ** Construction *)

(** X1. Construction reports an error exactly when one of its five steps
    fails, and the error is that step's. *)
Theorem newHecConn_error_iff net nm gc tmo e :
  (newHecConn net nm gc tmo).2 = Some e ↔ probe_fails net gc e.
Proof.
  split.
  - unfold newHecConn, test.
    destruct (url_Parse net (HEC gc)) as [e0|u] eqn:Hp; simpl.
    { intros [= <-]. by apply fails_parse. }
    destruct (ResolveTCPAddr net (Host u)) as [e0|a] eqn:Hr; simpl.
    { intros [= <-]. by eapply fails_resolve. }
    destruct (DialTCP net a) as [e0|c] eqn:Hd; simpl.
    { intros [= <-]. by eapply fails_dial. }
    destruct (SplitHostPort net (LocalAddr c)) as [e0|[ip port]] eqn:Hs; simpl.
    { intros [= <-]. by eapply fails_split. }
    destruct (closeErr c) as [e0|] eqn:Hc; simpl; [|done].
    intros [= <-]. by eapply fails_close.
  - intros Hf. unfold newHecConn, test.
    destruct Hf as [e Hp|u e Hp Hr|u a e Hp Hr Hd|u a c e Hp Hr Hd Hs
                   |u a c [ip port] e Hp Hr Hd Hs Hc]; rewrite Hp; simpl; [done|..].
    + by rewrite Hr.
    + by rewrite Hr, Hd.
    + by rewrite Hr, Hd, Hs.
    + rewrite Hr, Hd, Hs. simpl. by rewrite Hc.
Qed.

(** X2. What a successful construction hands back: the configuration kept,
    the credential behind the word Splunk, the table holding the default
    tag at id 0 and nothing else, an empty open stream, a worker about
    to send on a fresh channel, and as source address whatever
    [ParseIP] made of the host part of the probe's local address. *)
Theorem newHecConn_builds net nm gc tmo hec :
  newHecConn net nm gc tmo = (Some hec, None) →
  cfg hec = gc ∧ name hec = nm ∧ auth hec = "Splunk " +:+ Auth gc ∧
  seeded hec ∧ LookupTag 0 hec = (Tag gc, true) ∧
  wtr hec = Some (new_pipe (bodyStop net)) ∧ stream hec = "" ∧
  chan_ok hec ∧ awaits (peer net) hec ∧
  ∃ u a c ip port,
    url_Parse net (HEC gc) = inr u ∧ ResolveTCPAddr net (Host u) = inr a ∧
    DialTCP net a = inr c ∧ SplitHostPort net (LocalAddr c) = inr (ip, port) ∧
    SourceIP hec = (ParseIP net ip, None).
Proof.
  unfold newHecConn, test.
  destruct (url_Parse net (HEC gc)) as [e0|u] eqn:Hp; simpl; [done|].
  destruct (ResolveTCPAddr net (Host u)) as [e0|a] eqn:Hr; simpl; [done|].
  destruct (DialTCP net a) as [e0|c] eqn:Hd; simpl; [done|].
  destruct (SplitHostPort net (LocalAddr c)) as [e0|[ip port]] eqn:Hs; simpl; [done|].
  destruct (closeErr c) as [e0|] eqn:Hc; simpl; [done|].
  intros [= <-]. unfold seeded, LookupTag, stream, chan_ok, awaits, SourceIP. simpl.
  rewrite lookup_singleton_eq.
  split_and!; try done. by exists u, a, c, ip, port.
Qed.

Lemma newHecConn_builds_witness :
  newHecConn (loopback accepted) "generator" raw_cfg 0
    = (Some (fresh raw_cfg accepted), None) ∧
  LookupTag 0 (fresh raw_cfg accepted) = ("syslog", true) ∧
  auth (fresh raw_cfg accepted) = "Splunk token".
Proof.
  assert (Hn : newHecConn (loopback accepted) "generator" raw_cfg 0
               = (Some (fresh raw_cfg accepted), None)) by reflexivity.
  split; [exact Hn|].
  destruct (newHecConn_builds _ _ _ _ _ Hn) as (_ & _ & Ha & _ & Hl & _).
  split; [exact Hl|exact Ha].
Defined.

(** ** The tag table *)

(** X3. Negotiate, then look the id up: the name comes back. This holds on
    any connection whatever. *)
Theorem negotiate_then_LookupTag `{TagRules} v hec :
  CheckTag v = None →
  (NegotiateTag v hec).1.2 = None ∧
  LookupTag (NegotiateTag v hec).1.1 (NegotiateTag v hec).2 = (v, true).
Proof.
  intros Hc. unfold NegotiateTag, LookupTag. rewrite Hc.
  destruct (findTag v (tags hec)) as [k|] eqn:Hf; simpl.
  - by rewrite (findTag_Some _ _ _ Hf).
  - by rewrite lookup_insert_eq.
Qed.

Lemma negotiate_then_LookupTag_witness :
  LookupTag 1 (NegotiateTag (H := alnumRules) "t1" (fresh event_cfg accepted)).2
  = ("t1", true).
Proof.
  by destruct (negotiate_then_LookupTag (H := alnumRules) "t1"
                 (fresh event_cfg accepted) eq_refl) as [_ Hl].
Defined.

(** X4. Negotiate, then resolve the name: the same id comes back, without a
    new entry. *)
Theorem negotiate_then_GetTag `{TagRules} h0 before hec v :
  seeded h0 → negotiated h0 before hec → CheckTag v = None →
  GetTag v (NegotiateTag v hec).2
  = (((NegotiateTag v hec).1.1, None), (NegotiateTag v hec).2).
Proof.
  intros Hs Hn Hc.
  pose proof (negotiated_table_ok _ _ _ Hs Hn) as Hok.
  destruct (NegotiateTag_table_ok v hec Hok) as (Hu & _).
  apply GetTag_present; [done|].
  unfold NegotiateTag. rewrite Hc.
  destruct (findTag v (tags hec)) as [k|] eqn:Hf; simpl.
  - by apply findTag_Some.
  - by rewrite lookup_insert_eq.
Qed.

Lemma negotiate_then_GetTag_witness :
  (GetTag "t1" (NegotiateTag (H := alnumRules) "t1" (fresh event_cfg accepted)).2).1
  = (1, None).
Proof.
  by rewrite (negotiate_then_GetTag (H := alnumRules) (fresh event_cfg accepted) []
                (fresh event_cfg accepted) "t1" eq_refl
                (negotiated_nil _) eq_refl).
Defined.

(** X5. On every connection reached from construction the two lookups are
    inverse to each other: an id holds a name exactly when the name
    resolves to that id. *)
Theorem LookupTag_GetTag_inverse `{TagRules} h0 before hec k v :
  seeded h0 → negotiated h0 before hec →
  LookupTag k hec = (v, true) ↔ GetTag v hec = ((k, None), hec).
Proof.
  intros Hs Hn.
  destruct (negotiated_table_ok _ _ _ Hs Hn) as (Hu & _).
  unfold LookupTag. split.
  - destruct (tags hec !! k) as [w|] eqn:Hk; [|done].
    intros [= ->]. by apply GetTag_present.
  - unfold GetTag. destruct (findTag v (tags hec)) as [k'|] eqn:Hf; [|done].
    intros [= ->]. by rewrite (findTag_Some _ _ _ Hf).
Qed.

Lemma LookupTag_GetTag_inverse_witness :
  LookupTag 0 (fresh event_cfg accepted) = ("syslog", true) ∧
  GetTag "syslog" (fresh event_cfg accepted) = ((0, None), fresh event_cfg accepted).
Proof.
  assert (Hl : LookupTag 0 (fresh event_cfg accepted) = ("syslog", true))
    by reflexivity.
  split; [exact Hl|].
  by apply (LookupTag_GetTag_inverse (H := alnumRules) (fresh event_cfg accepted) []
              _ 0 "syslog" eq_refl (negotiated_nil _)).
Defined.

(** X6. The table of a connection reached from construction: its ids are
    exactly [0 .. size - 1], it never holds more than 2^16 entries, it is
    never empty, and no name sits at two ids. *)
Theorem tag_table_invariant `{TagRules} h0 names hec :
  seeded h0 → negotiated h0 names hec →
  (∀ k, is_Some (tags hec !! k) ↔ 0 <= k < Z.of_nat (size (tags hec))) ∧
  0 < Z.of_nat (size (tags hec)) <= 2 ^ 16 ∧
  (∀ k1 k2 v, tags hec !! k1 = Some v → tags hec !! k2 = Some v → k1 = k2).
Proof.
  intros Hs Hn. by destruct (negotiated_table_ok _ _ _ Hs Hn) as (Hu & Hd & Hsz).
Qed.

Lemma tag_table_invariant_witness :
  let hec := (NegotiateTag (H := alnumRules) "t1" (fresh event_cfg accepted)).2 in
  size (tags hec) = 2%nat ∧ is_Some (tags hec !! 1) ∧ ¬ is_Some (tags hec !! 2).
Proof.
  intros hec.
  assert (Hn : negotiated (H := alnumRules) (fresh event_cfg accepted) ([] ++ ["t1"]) hec)
    by apply negotiated_snoc, negotiated_nil.
  destruct (tag_table_invariant (H := alnumRules) (fresh event_cfg accepted) _ _
              eq_refl Hn) as (Hd & _ & _).
  assert (Hsz : size (tags hec) = 2%nat) by (vm_compute; reflexivity).
  split; [exact Hsz|]. rewrite !Hd, Hsz. lia.
Defined.

(** X7. While the table has room, a call disturbs no entry that is already
    there: ids once given stay with their names. *)
Theorem NegotiateTag_keeps_entries `{TagRules} h0 before hec v k w :
  seeded h0 → negotiated h0 before hec →
  Z.of_nat (size (tags hec)) < 2 ^ 16 →
  tags hec !! k = Some w →
  tags (NegotiateTag v hec).2 !! k = Some w.
Proof.
  intros Hs Hn Hroom Hk.
  destruct (negotiated_table_ok _ _ _ Hs Hn) as (Hu & Hd & Hsz).
  unfold NegotiateTag. destruct (CheckTag v); [done|].
  destruct (findTag v (tags hec)); [done|]. simpl.
  rewrite EntryTag_small by lia.
  rewrite lookup_insert_ne; [done|].
  intros <-. assert (Hin : is_Some (tags hec !! Z.of_nat (size (tags hec)))) by by eexists.
  apply Hd in Hin. lia.
Qed.

Lemma NegotiateTag_keeps_entries_witness :
  LookupTag 0 (NegotiateTag (H := alnumRules) "t1" (fresh event_cfg accepted)).2
  = ("syslog", true).
Proof.
  unfold LookupTag.
  rewrite (NegotiateTag_keeps_entries (H := alnumRules) (fresh event_cfg accepted) []
             (fresh event_cfg accepted) "t1" 0 "syslog" eq_refl (negotiated_nil _)).
  - reflexivity.
  - rewrite size_fresh. lia.
  - reflexivity.
Defined.

(** X8. With all 2^16 ids taken, one more new name is given id 0 all the
    same: it takes the place of the name that was there, which can then
    no longer be resolved, and the table does not grow. *)
Theorem NegotiateTag_full_table_evicts `{TagRules} h0 before hec v old :
  seeded h0 → negotiated h0 before hec →
  Z.of_nat (size (tags hec)) = 2 ^ 16 →
  CheckTag v = None → ¬ holds_name (tags hec) v →
  tags hec !! 0 = Some old →
  (NegotiateTag v hec).1 = (0, None) ∧
  LookupTag 0 (NegotiateTag v hec).2 = (v, true) ∧
  size (tags (NegotiateTag v hec).2) = size (tags hec) ∧
  (GetTag old (NegotiateTag v hec).2).1 = (0, Some "not found").
Proof.
  intros Hs Hn Hfull Hc Hnew Hold.
  destruct (negotiated_table_ok _ _ _ Hs Hn) as (Hu & Hd & Hsz).
  rewrite (NegotiateTag_new v hec Hc Hnew), Hfull, EntryTag_full.
  unfold LookupTag. simpl. rewrite lookup_insert_eq.
  split_and!; try done.
  - by eapply map_size_insert_Some.
  - rewrite GetTag_absent; [done|]. simpl. intros [k Hk].
    apply lookup_insert_Some in Hk as [[_ <-]|[Hk0 Hk]].
    + apply Hnew. by exists 0.
    + apply Hk0. by apply (Hu 0 k old).
Qed.

Lemma NegotiateTag_full_table_evicts_witness :
  (NegotiateTag (H := alnumRules) (tagName (Z.to_nat 65536)) crowded).1 = (0, None) ∧
  (GetTag "syslog"
     (NegotiateTag (H := alnumRules) (tagName (Z.to_nat 65536)) crowded).2).1
  = (0, Some "not found").
Proof.
  assert (H5 : Z.of_nat (Z.to_nat 65535) < 2 ^ 16) by lia.
  destruct (tagNames_table _ H5) as (_ & Hsz & _). fold crowded in Hsz.
  destruct (tagNames_reach _ H5) as (Hreach & Hold). fold crowded in Hreach, Hold.
  assert (Hfull : Z.of_nat (size (tags crowded)) = 2 ^ 16) by (rewrite Hsz; lia).
  assert (Hnew : ¬ holds_name (tags crowded) (tagName (Z.to_nat 65536)))
    by (apply tagName_new_after; lia).
  assert (Hval : alnumRules (tagName (Z.to_nat 65536)) = None)
    by (apply tagName_valid; lia).
  destruct (NegotiateTag_full_table_evicts (H := alnumRules)
              (fresh event_cfg accepted) _ crowded _ "syslog"
              eq_refl Hreach Hfull Hval Hnew Hold) as (Hid & _ & _ & Hget).
  split; [exact Hid|exact Hget].
Defined.

(** ** Writing *)

Lemma set_wtr_id hec p : wtr hec = Some p → set_wtr (Some p) hec = hec.
Proof. intros <-. apply set_wtr_same. Qed.

Lemma pipe_Write_closed p b : wclosed p = true → pipe_Write p b = ((0%nat, Some ErrClosedPipe), p).
Proof. unfold pipe_Write. by intros ->. Qed.

Lemma Close_closes_writer hec p r h1 :
  wtr hec = Some p → Close hec = (r, h1) → wtr h1 = Some (pipe_Close p) ∧ cfg h1 = cfg hec.
Proof.
  unfold Close. intros ->. revert r h1.
  assert (Hgen : ∀ fuel h r h1, await fuel h = (r, h1) → wtr h1 = wtr h ∧ cfg h1 = cfg h).
  { induction fuel as [|f IH]; intros h r h1; simpl.
    - destruct (chan_recv (errch h)) as [[v c]|]; by intros; simplify_eq.
    - destruct (chan_recv (errch h)) as [[v c]|]; [by intros; simplify_eq|].
      destruct (httpRoutine_step h) as [h'|] eqn:Hs; [|by intros; simplify_eq].
      intros Ha. apply IH in Ha as [? ?].
      apply httpRoutine_step_wtr in Hs as (? & _ & ?). split; congruence. }
  intros r h1 Ha. by apply Hgen in Ha as [-> ->].
Qed.

(** X9. After [Close] no write changes the connection, its request
    body included. A write of an entry returns an error, which in raw
    mode is that of the closed pipe; a nil entry panics in raw mode and
    is passed over, with nil, in event mode. *)
Theorem write_after_Close_fails `{FloatFormat} hec r h1 ent :
  is_Some (wtr hec) → Close hec = (r, h1) →
  (WriteEntry h1 ent).2 = h1 ∧
  match ent with
  | Some e =>
      ∃ err, (WriteEntry h1 ent).1 = Returned (Some err) ∧
             (modeHECRaw (cfg h1) = true → err = ErrClosedPipe)
  | None =>
      (WriteEntry h1 ent).1
      = if modeHECRaw (cfg h1) then Panicked else Returned None
  end.
Proof.
  intros [p Hp] Hc.
  destruct (Close_closes_writer _ _ _ _ Hp Hc) as [Hw _].
  unfold WriteEntry. destruct ent as [e|].
  - destruct (modeHECRaw (cfg h1)).
    + unfold sendRaw. rewrite Hw, pipe_Write_closed by done.
      rewrite set_wtr_id by done. split; [done|]. by exists ErrClosedPipe.
    + unfold sendEvent, Encode. destruct (marshal_hecent _) as [me|b].
      * rewrite set_wtr_same. split; [done|]. by exists me.
      * rewrite Hw, pipe_Write_closed by done. rewrite set_wtr_id by done.
        split; [done|]. by exists ErrClosedPipe.
  - by destruct (modeHECRaw (cfg h1)).
Qed.

Lemma write_after_Close_fails_witness :
  let h1 := (Close (fresh raw_cfg accepted)).2 in
  WriteEntry (H := wholeFormat) h1 (Some (sample "late"))
  = (Returned (Some ErrClosedPipe), h1).
Proof.
  intros h1.
  assert (Hw : is_Some (wtr (fresh raw_cfg accepted))) by (by eexists).
  assert (Hc : Close (fresh raw_cfg accepted) = (Returned None, h1)) by reflexivity.
  destruct (write_after_Close_fails (H := wholeFormat) _ _ _ (Some (sample "late")) Hw Hc)
    as (Hst & err & HW & Herr).
  rewrite (surjective_pairing (WriteEntry h1 (Some (sample "late")))).
  rewrite Hst, HW. by rewrite Herr.
Defined.

(** X10. Writing only ever appends: whatever a batch holds (nil entries
    included) and however it ends, the bytes already handed to the
    request body stay as they are, at the front. *)
Theorem WriteBatch_appends_only `{FloatFormat} hec ents :
  ∃ part, stream (WriteBatch hec ents).2 = stream hec +:+ part.
Proof.
  revert hec. induction ents as [|ent ents IH]; intros hec.
  - exists "". simpl. by rewrite app_nil_r.
  - simpl. destruct (WriteEntry_appends hec ent) as [part1 H1].
    destruct (WriteEntry hec ent) as [[[er|]| |] h1]; simpl in *; try by eexists.
    destruct (IH h1) as [part2 H2]. exists (part1 +:+ part2).
    by rewrite H2, H1, app_assoc.
Qed.

(** X11. A batch in two parts is the first part followed, if it went through,
    by the second. *)
Theorem WriteBatch_app `{FloatFormat} hec ents1 ents2 :
  WriteBatch hec (ents1 ++ ents2)
  = match WriteBatch hec ents1 with
    | (Returned None, h) => WriteBatch h ents2
    | other => other
    end.
Proof.
  revert hec. induction ents1 as [|ent ents1 IH]; intros hec; [done|].
  simpl. destruct (WriteEntry hec ent) as [[[er|]| |] h1]; first [done|apply IH].
Qed.

Lemma WriteEntry_cfg `{FloatFormat} hec ent : cfg (WriteEntry hec ent).2 = cfg hec.
Proof.
  unfold WriteEntry, sendRaw, sendEvent, Encode.
  destruct (modeHECRaw (cfg hec)), ent as [e|]; try done.
  - destruct (wtr hec) as [p|]; [|done].
    destruct (pipe_Write p _) as [[n1 [e1|]] p1]; [done|].
    by destruct (pipe_Write p1 nl) as [[n2 e2] p2].
  - destruct (marshal_hecent _); [done|].
    destruct (wtr hec) as [p|]; [|done].
    by destruct (pipe_Write p _) as [[n1 e1] p1].
Qed.

(** X12. In event mode nil entries are passed over: a batch behaves as the
    batch of its entries that are there. *)
Theorem event_batch_skips_nil `{FloatFormat} hec ents :
  modeHECRaw (cfg hec) = false →
  WriteBatch hec ents = WriteBatch hec (Some <$> omap id ents).
Proof.
  revert hec. induction ents as [|ent ents IH]; intros hec Hm; [done|].
  destruct ent as [e|]; simpl.
  - pose proof (WriteEntry_cfg hec (Some e)) as Hc.
    destruct (WriteEntry hec (Some e)) as [[[er|]| |] h1]; try done.
    apply IH. simpl in Hc. by rewrite Hc.
  - unfold WriteEntry at 1. rewrite Hm. simpl. by apply IH.
Qed.

Lemma event_batch_skips_nil_witness :
  WriteBatch (H := wholeFormat) (fresh event_cfg accepted)
    [None; Some (sample "1"); None]
  = WriteBatch (H := wholeFormat) (fresh event_cfg accepted) [Some (sample "1")].
Proof.
  exact (event_batch_skips_nil (H := wholeFormat) (fresh event_cfg accepted)
           [None; Some (sample "1"); None] eq_refl).
Defined.

(** X13. In raw mode a nil entry is dereferenced: the batch panics there,
    with the entries before it written. *)
Theorem raw_batch_panics_at_nil `{FloatFormat} hec pre hmid post :
  modeHECRaw (cfg hec) = true →
  written hec pre hmid →
  WriteBatch hec ((Some <$> pre) ++ None :: post) = (Panicked, hmid).
Proof.
  intros Hm Hw. induction Hw as [hec|hec e h1 es h2 He Hw IH].
  - simpl. unfold WriteEntry. by rewrite Hm.
  - simpl. rewrite He. apply IH.
    pose proof (WriteEntry_cfg hec (Some e)) as Hc. rewrite He in Hc. simpl in Hc.
    by rewrite Hc.
Qed.

Lemma raw_batch_panics_at_nil_witness :
  let r := WriteBatch (H := wholeFormat) (fresh raw_cfg accepted)
             [Some (sample "one"); None; Some (sample "two")] in
  r.1 = Panicked ∧ stream r.2 = "one" +:+ nl.
Proof.
  intros r.
  assert (Hw : written (H := wholeFormat) (fresh raw_cfg accepted) [sample "one"]
                 (WriteEntry (H := wholeFormat) (fresh raw_cfg accepted)
                    (Some (sample "one"))).2)
    by (econstructor; [reflexivity|constructor]).
  pose proof (raw_batch_panics_at_nil (H := wholeFormat) (fresh raw_cfg accepted) _ _
                [Some (sample "two")] eq_refl Hw) as Hr.
  subst r. simpl fmap in Hr. simpl app in Hr. rewrite Hr. split; reflexivity.
Defined.

(** X14. A raw write cut short. When the read side shuts after [k] more
    bytes, with [k] no more than the payload's length, the write returns
    the reader's error and the request body has received exactly the
    first [k] bytes of the payload, without a newline. *)
Theorem raw_write_cut_short `{FloatFormat} hec p k er e :
  modeHECRaw (cfg hec) = true →
  wtr hec = Some p → wclosed p = false → rclose p = Some (k, er) →
  (k <= String.length (entry.Data e))%nat →
  (WriteEntry hec (Some e)).1 = Returned (Some er) ∧
  stream (WriteEntry hec (Some e)).2 = stream hec +:+ take_bytes k (entry.Data e).
Proof.
  intros Hm Hp Hc Hr Hk.
  assert (Hres : ∃ p', sendRaw hec (Some e) = (Returned (Some er), set_wtr (Some p') hec)
                       ∧ sent p' = sent p +:+ take_bytes k (entry.Data e)).
  { unfold sendRaw. rewrite Hp. unfold pipe_Write at 1. rewrite Hc, Hr.
    destruct (Nat.eqb_spec k 0) as [->|Hk0].
    { exists p. split; [done|]. destruct (entry.Data e); by rewrite app_nil_r. }
    destruct (Nat.leb_spec (String.length (entry.Data e)) k) as [Hle|Hgt].
    - assert (k = String.length (entry.Data e)) as -> by lia.
      unfold pipe_Write. simpl. rewrite Nat.sub_diag. simpl.
      eexists. split; [done|]. simpl. by rewrite take_all.
    - eexists. split; [done|]. done. }
  destruct Hres as (p' & Hres & Hs).
  unfold WriteEntry. rewrite Hm, Hres. unfold stream. simpl. by rewrite Hp.
Qed.

Lemma raw_write_cut_short_witness :
  let hec := set_wtr (Some (new_pipe (Some (3%nat, ErrClosedPipe))))
               (fresh raw_cfg accepted) in
  (WriteEntry (H := wholeFormat) hec (Some (sample "abcdef"))).1
    = Returned (Some ErrClosedPipe) ∧
  stream (WriteEntry (H := wholeFormat) hec (Some (sample "abcdef"))).2 = "abc".
Proof.
  intros hec.
  destruct (raw_write_cut_short (H := wholeFormat) hec _ 3 ErrClosedPipe
              (sample "abcdef") eq_refl eq_refl eq_refl eq_refl) as [Hr Hs].
  - simpl. lia.
  - split; [exact Hr|]. rewrite Hs. reflexivity.
Defined.

(** ** Closing *)

(** X15. A request that could not be built or sent: the first [Close] returns
    that very error, however the goroutine is scheduled. *)
Theorem Close_reports_transport_failure hec x e :
  is_Some (wtr hec) → awaits x hec →
  x = NewRequestFails e ∨ x = DoFails e →
  (∃ h', Close hec = (Returned (Some e), h')) ∧
  ∀ v h', Close_returns hec v h' → v = Some e.
Proof.
  intros Hw Ha Hx.
  assert (Hpost : httpRoutine_post x = Some e) by (by destruct Hx as [-> | ->]).
  split.
  - destruct (awaits_Close _ _ Ha Hw) as (h' & HC & _). rewrite Hpost in HC. eauto.
  - intros v h' HR. by rewrite (awaits_Close_returns _ _ _ _ Ha HR).
Qed.

Lemma Close_reports_transport_failure_witness :
  (Close (fresh event_cfg (DoFails "dial tcp: i/o timeout"))).1
  = Returned (Some "dial tcp: i/o timeout").
Proof.
  assert (Hw : is_Some (wtr (fresh event_cfg (DoFails "dial tcp: i/o timeout"))))
    by (by eexists).
  assert (Ha : awaits (DoFails "dial tcp: i/o timeout")
                 (fresh event_cfg (DoFails "dial tcp: i/o timeout")))
    by (split; reflexivity).
  destruct (Close_reports_transport_failure _ _ "dial tcp: i/o timeout" Hw Ha
              (or_intror eq_refl)) as [(h' & HC) _].
  by rewrite HC.
Defined.

(** X16. The text of a refusal is its heading followed by a piece of the
    response body that is a prefix of it and at most 512 bytes long. *)
Theorem statusError_body_bound r :
  ∃ msg rest,
    statusError r
    = "invalid status " +:+ pretty (StatusCode r) +:+ " (" +:+ Status r +:+ ")"
        +:+ nl +:+ msg ∧
    (String.length msg <= 512)%nat ∧
    content (Body r) = msg +:+ rest.
Proof.
  unfold statusError, readLimited.
  destruct (Nat.leb_spec 512 (String.length (content (Body r)))) as [Hl|Hl].
  - exists (take_bytes 512 (content (Body r))), (drop_bytes 512 (content (Body r))).
    split_and!; [done|apply length_take|by rewrite take_drop].
  - destruct (readErr (Body r)).
    + exists "", (content (Body r)). split_and!; [done|simpl; lia|done].
    + exists (content (Body r)), "". split_and!; [done|lia|by rewrite app_nil_r].
Qed.

(** ** One connection, several parts *)

Lemma await_frame fuel h r h1 :
  await fuel h = (r, h1) →
  src h1 = src h ∧ tags h1 = tags h ∧ cfg h1 = cfg h ∧ wtr h1 = wtr h.
Proof.
  assert (Hstep : ∀ h h', httpRoutine_step h = Some h' →
            src h' = src h ∧ tags h' = tags h ∧ cfg h' = cfg h ∧ wtr h' = wtr h).
  { intros h0 h'. unfold httpRoutine_step. destruct (routine h0); try done.
    - destruct (chan_send _ _); by intros; simplify_eq.
    - by intros; simplify_eq. }
  revert h. induction fuel as [|f IH]; intros h; simpl.
  - destruct (chan_recv (errch h)) as [[v c]|]; by intros; simplify_eq.
  - destruct (chan_recv (errch h)) as [[v c]|]; [by intros; simplify_eq|].
    destruct (httpRoutine_step h) as [h'|] eqn:Hs; [|by intros; simplify_eq].
    intros Ha. apply IH in Ha as (? & ? & ? & ?).
    apply Hstep in Hs as (? & ? & ? & ?). split_and!; congruence.
Qed.

Lemma WriteEntry_frame `{FloatFormat} hec ent :
  src (WriteEntry hec ent).2 = src hec ∧ tags (WriteEntry hec ent).2 = tags hec ∧
  errch (WriteEntry hec ent).2 = errch hec ∧ routine (WriteEntry hec ent).2 = routine hec.
Proof.
  unfold WriteEntry, sendRaw, sendEvent, Encode.
  destruct (modeHECRaw (cfg hec)), ent as [e|]; try done.
  - destruct (wtr hec) as [p|]; [|done].
    destruct (pipe_Write p _) as [[n1 [e1|]] p1]; [done|].
    by destruct (pipe_Write p1 nl) as [[n2 e2] p2].
  - destruct (marshal_hecent _); [done|].
    destruct (wtr hec) as [p|]; [|done].
    by destruct (pipe_Write p _) as [[n1 e1] p1].
Qed.

Lemma WriteBatch_frame `{FloatFormat} hec ents :
  src (WriteBatch hec ents).2 = src hec ∧ tags (WriteBatch hec ents).2 = tags hec ∧
  errch (WriteBatch hec ents).2 = errch hec ∧ routine (WriteBatch hec ents).2 = routine hec.
Proof.
  revert hec. induction ents as [|ent ents IH]; intros hec; [done|].
  simpl. destruct (WriteEntry_frame hec ent) as (Hs & Ht & He & Hr).
  destruct (WriteEntry hec ent) as [[[er|]| |] h1]; simpl in *;
    try (split_and!; congruence).
  destruct (IH h1) as (? & ? & ? & ?). split_and!; congruence.
Qed.

Lemma NegotiateTag_frame `{TagRules} v hec :
  src (NegotiateTag v hec).2 = src hec ∧ wtr (NegotiateTag v hec).2 = wtr hec ∧
  errch (NegotiateTag v hec).2 = errch hec ∧ routine (NegotiateTag v hec).2 = routine hec.
Proof.
  unfold NegotiateTag. destruct (CheckTag v); [done|].
  by destruct (findTag v (tags hec)).
Qed.

Lemma Close_frame hec : src (Close hec).2 = src hec ∧ tags (Close hec).2 = tags hec.
Proof.
  destruct (Close hec) as [r h1] eqn:Hc. unfold Close in Hc.
  destruct (wtr hec) as [p|]; [|by simplify_eq].
  by apply await_frame in Hc as (Hs & Ht & _).
Qed.

(** X17. The parts of a connection keep to themselves. Writing leaves the
    tag table, the source address and the outcome channel alone;
    negotiating a tag leaves the stream, the source address and the
    channel alone; closing leaves the table, the source address and the
    bytes of the request body alone. In particular [SourceIP] answers
    the same before and after any of them. *)
Theorem operations_keep_apart `{FloatFormat} `{TagRules} hec :
  (∀ ents, tags (WriteBatch hec ents).2 = tags hec ∧
           SourceIP (WriteBatch hec ents).2 = SourceIP hec ∧
           errch (WriteBatch hec ents).2 = errch hec ∧
           routine (WriteBatch hec ents).2 = routine hec) ∧
  (∀ v, wtr (NegotiateTag v hec).2 = wtr hec ∧
        SourceIP (NegotiateTag v hec).2 = SourceIP hec ∧
        errch (NegotiateTag v hec).2 = errch hec ∧
        routine (NegotiateTag v hec).2 = routine hec) ∧
  (tags (Close hec).2 = tags hec ∧
   SourceIP (Close hec).2 = SourceIP hec ∧
   stream (Close hec).2 = stream hec).
Proof.
  unfold SourceIP. split; [|split].
  - intros ents. destruct (WriteBatch_frame hec ents) as (-> & -> & -> & ->). done.
  - intros v. destruct (NegotiateTag_frame v hec) as (-> & -> & -> & ->). done.
  - destruct (Close_frame hec) as (-> & ->). split_and!; try done.
    exact (Close_stream hec _ _ (surjective_pairing _)).
Qed.

(** ** Choosing how the payload is carried *)

(** X18. For object-shaped payloads [setData] takes turns: of two calls in a
    row one returns its payload as it is and the other returns it as a
    quoted string, and the switch is back where it was. *)
Theorem setData_takes_turns d1 d2 (osc : bool) :
  looksLikeObject d1 = true → looksLikeObject d2 = true →
  (setData d2 (setData d1 osc).2).2 = osc ∧
  ((setData d1 osc).1 = d1 ∧
   (setData d2 (setData d1 osc).2).1 = json.appendString d2
   ∨
   (setData d1 osc).1 = json.appendString d1 ∧
   (setData d2 (setData d1 osc).2).1 = d2).
Proof.
  intros H1 H2. unfold setData. rewrite H1. destruct osc; simpl; rewrite H2; simpl.
  - split; [done|]. by right.
  - split; [done|]. by left.
Qed.

Lemma setData_takes_turns_witness :
  (setData a_is_1 (setData a_is_1 false).2).2 = false ∧
  ((setData a_is_1 false).1 = a_is_1 ∧
   (setData a_is_1 (setData a_is_1 false).2).1 = json.appendString a_is_1
   ∨
   (setData a_is_1 false).1 = json.appendString a_is_1 ∧
   (setData a_is_1 (setData a_is_1 false).2).1 = a_is_1).
Proof. exact (setData_takes_turns a_is_1 a_is_1 false eq_refl eq_refl). Defined.

Lemma htmlSafe_ascii c : json.htmlSafe c = true → (byteval c <? 0x80)%N = true.
Proof.
  unfold json.htmlSafe. intros Hs.
  apply andb_prop in Hs as [Hs _]. by apply andb_prop in Hs as [_ Hs].
Qed.

Lemma appendString_go_safe s :
  all_bytes json.htmlSafe s = true → json.appendString_go json.Scan s = s.
Proof.
  induction s as [|c s IH]; [done|]. simpl.
  intros Hs. apply andb_prop in Hs as [Hc Hs].
  by rewrite (htmlSafe_ascii c Hc), Hc, IH.
Qed.

(** X19. A payload of plain printable ASCII (no quote, backslash, [<], [>]
    or [&]) that is not object-shaped comes back from [setData] between
    double quotes, unchanged, and the switch is not touched. *)
Theorem setData_quotes_ascii data (osc : bool) :
  looksLikeObject data = false →
  all_bytes json.htmlSafe data = true →
  setData data osc = (quoted data, osc).
Proof.
  intros Hl Hs. unfold setData, json.appendString, quoted, dq. rewrite Hl.
  by rewrite (appendString_go_safe data Hs).
Qed.

Lemma setData_quotes_ascii_witness :
  setData "hello world" true = (quoted "hello world", true).
Proof. exact (setData_quotes_ascii "hello world" true eq_refl eq_refl). Defined.

(** ** Event records and the epoch *)



(** ** Ids out of range *)

(** X21. On a connection reached from construction an id at or beyond the
    table's size, or below 0, is not found: [LookupTag] returns the
    empty name and false. *)
Theorem LookupTag_out_of_range `{TagRules} h0 names hec k :
  seeded h0 → negotiated h0 names hec →
  k < 0 ∨ Z.of_nat (size (tags hec)) <= k →
  LookupTag k hec = ("", false).
Proof.
  intros Hs Hn Hk.
  destruct (negotiated_table_ok _ _ _ Hs Hn) as (_ & Hd & _).
  unfold LookupTag. destruct (tags hec !! k) as [w|] eqn:Hw; [|done].
  assert (Hin : is_Some (tags hec !! k)) by by eexists.
  apply Hd in Hin. lia.
Qed.

Lemma LookupTag_out_of_range_witness :
  LookupTag 1 (fresh event_cfg accepted) = ("", false).
Proof.
  apply (LookupTag_out_of_range (H := alnumRules) (fresh event_cfg accepted) []
           (fresh event_cfg accepted) 1 eq_refl (negotiated_nil _)).
  right. rewrite size_fresh. lia.
Defined.

(** ** Raw mode on a stream that is being read *)



(** ** The channel and the worker stay in step *)

Lemma await_chan_ok fuel h r h1 : chan_ok h → await fuel h = (r, h1) → chan_ok h1.
Proof.
  revert h. induction fuel as [|f IH]; intros h Hok; simpl.
  - destruct (chan_recv (errch h)) as [[v c]|] eqn:Hrecv; intros; simplify_eq; [|done].
    destruct (chan_ok_recv _ _ _ Hok Hrecv) as [_ [[Hr Hc]|[Hr Hc]]];
      unfold chan_ok; by rewrite Hr.
  - destruct (chan_recv (errch h)) as [[v c]|] eqn:Hrecv.
    + intros; simplify_eq.
      destruct (chan_ok_recv _ _ _ Hok Hrecv) as [_ [[Hr Hc]|[Hr Hc]]];
        unfold chan_ok; by rewrite Hr.
    + destruct (httpRoutine_step h) as [h'|] eqn:Hs; [|by intros; simplify_eq].
      apply IH. by eapply chan_ok_step.
Qed.

(** X23. Construction leaves channel and goroutine in step ([chan_ok]), and
    every operation of the connection, as every move of the goroutine,
    keeps them so. *)
Theorem chan_ok_invariant `{FloatFormat} `{TagRules} hec :
  chan_ok hec →
  (∀ ents, chan_ok (WriteBatch hec ents).2) ∧
  (∀ v, chan_ok (NegotiateTag v hec).2) ∧
  (∀ v, chan_ok (GetTag v hec).2) ∧
  chan_ok (Close hec).2 ∧
  (∀ h', worker_runs hec h' → chan_ok h').
Proof.
  intros Hok. split_and!.
  - intros ents. destruct (WriteBatch_frame hec ents) as (_ & _ & He & Hr).
    unfold chan_ok in *. by rewrite Hr, He.
  - intros v. destruct (NegotiateTag_frame v hec) as (_ & _ & He & Hr).
    unfold chan_ok in *. by rewrite Hr, He.
  - intros v. unfold GetTag. by destruct (findTag v (tags hec)).
  - destruct (Close hec) as [r h1] eqn:Hc. unfold Close in Hc.
    destruct (wtr hec) as [p|]; [|by simplify_eq].
    by apply await_chan_ok in Hc.
  - intros h' Hr. by eapply chan_ok_runs.
Qed.

Lemma chan_ok_invariant_witness :
  chan_ok (fresh raw_cfg accepted) ∧ chan_ok (Close (fresh raw_cfg accepted)).2.
Proof.
  assert (Hok : chan_ok (fresh raw_cfg accepted)) by reflexivity.
  split; [exact Hok|].
  by destruct (chan_ok_invariant (H := wholeFormat) (H0 := alnumRules) _ Hok)
    as (_ & _ & _ & Hc & _).
Defined.

(** ** What [setData] quotes is JSON *)

Lemma compact_go_scanner src rest i start scan dst :
  (json.compact_go src rest i start scan dst).1.1 = scan_all scan rest.
Proof.
  revert i start scan dst. induction rest as [|c rest IH]; intros i start scan dst;
    [done|].
  cbn [json.compact_go scan_all].
  destruct (json.isHTML c); destruct (json.lineSep (String c rest));
    destruct (json.scan_step scan c) as [v scan']; destruct v; simpl; try done;
    apply IH.
Qed.

(** The encoder's check of a raw message is the scanner run over it. *)
Lemma Valid_scan src : json.Valid src = json.scan_eof (scan_all json.newScanner src).
Proof.
  unfold json.Valid, json.appendCompact.
  pose proof (compact_go_scanner src src 0 0 json.newScanner "") as Hs.
  destruct (json.compact_go src src 0 0 json.newScanner "") as [[scan start] dst].
  simpl in Hs. subst scan. by destruct (json.scan_eof _).
Qed.

Lemma scan_plain c r :
  (0x20 <=? byteval c)%N = true → (byteval c =? 0x22)%N = false →
  (byteval c =? 0x5C)%N = false →
  scan_all inString (String c r) = scan_all inString r.
Proof.
  intros H1 H2 H3. cbn [scan_all]. unfold json.scan_step. simpl.
  rewrite H2, H3.
  replace (byteval c <? 0x20)%N with false; [done|].
  symmetry. apply N.ltb_ge. by apply N.leb_le.
Qed.

Lemma scan_high c r :
  (0x80 <=? byteval c)%N = true → scan_all inString (String c r) = scan_all inString r.
Proof.
  intros H. apply N.leb_le in H. apply scan_plain.
  - apply N.leb_le. lia.
  - apply N.eqb_neq. lia.
  - apply N.eqb_neq. lia.
Qed.

Lemma scan_safe c r :
  json.htmlSafe c = true → scan_all inString (String c r) = scan_all inString r.
Proof.
  unfold json.htmlSafe. intros Hs.
  apply andb_prop in Hs as [Hs Hn]. apply andb_prop in Hs as [Hlo _].
  apply negb_true_iff in Hn.
  repeat (apply orb_false_iff in Hn as [Hn ?]).
  by apply scan_plain.
Qed.

Lemma isHex_hexdigit n : json.isHex (hexdigit n) = true.
Proof.
  unfold hexdigit. generalize (N.to_nat n). intros k.
  do 16 (destruct k as [|k]; [reflexivity|]). reflexivity.
Qed.

Lemma scan_step_hex st next c :
  json.isHex c = true →
  (st = json.stateInStringEscU ∧ next = json.stateInStringEscU1 ∨
   st = json.stateInStringEscU1 ∧ next = json.stateInStringEscU12 ∨
   st = json.stateInStringEscU12 ∧ next = json.stateInStringEscU123 ∨
   st = json.stateInStringEscU123 ∧ next = json.stateInString) →
  json.scan_step (json.set_step st inString) c
  = (json.scanContinue, json.set_step next inString).
Proof.
  intros Hc Hst. unfold json.scan_step. cbn [json.step json.set_step].
  destruct Hst as [[-> ->]|[[-> ->]|[[-> ->]|[-> ->]]]]; cbv iota; by rewrite Hc.
Qed.

Lemma scan_u a b c d r :
  json.isHex a = true → json.isHex b = true → json.isHex c = true → json.isHex d = true →
  scan_all inString (String "\"%char (String "u"%char
                       (String a (String b (String c (String d r))))))
  = scan_all inString r.
Proof.
  intros Ha Hb Hc Hd. cbn [scan_all].
  change (json.scan_step inString "\"%char)
    with (json.scanContinue, json.set_step json.stateInStringEsc inString).
  cbv beta iota zeta.
  change (json.scan_step (json.set_step json.stateInStringEsc inString) "u"%char)
    with (json.scanContinue, json.set_step json.stateInStringEscU inString).
  cbv beta iota zeta.
  rewrite (scan_step_hex json.stateInStringEscU json.stateInStringEscU1 a Ha)
    by tauto. cbv beta iota zeta.
  replace (json.scan_step (json.set_step json.stateInStringEscU1 inString) b)
    with (json.scanContinue, json.set_step json.stateInStringEscU12 inString)
    by (symmetry; apply scan_step_hex; tauto).
  cbv beta iota zeta.
  replace (json.scan_step (json.set_step json.stateInStringEscU12 inString) c)
    with (json.scanContinue, json.set_step json.stateInStringEscU123 inString)
    by (symmetry; apply scan_step_hex; tauto).
  cbv beta iota zeta.
  replace (json.scan_step (json.set_step json.stateInStringEscU123 inString) d)
    with (json.scanContinue, json.set_step json.stateInString inString)
    by (symmetry; apply scan_step_hex; tauto).
  cbv beta iota zeta. reflexivity.
Qed.

Lemma scan_escape_ascii c r :
  (byteval c <? 0x80)%N = true →
  scan_all inString (json.escape_ascii c +:+ r) = scan_all inString r.
Proof.
  intros _. unfold json.escape_ascii.
  destruct ((byteval c =? 0x5C)%N || (byteval c =? 0x22)%N) eqn:Hq.
  { rewrite !app_cons, app_nil_l. cbn [scan_all]. unfold json.scan_step. simpl.
    apply orb_true_iff in Hq as [Hq|Hq]; rewrite Hq; simpl;
      by rewrite ?orb_true_r. }
  repeat (match goal with
          | |- context [if ?b then _ else _] =>
              destruct b; [reflexivity|]
          end).
  unfold json.escape_u00. rewrite !app_cons, app_nil_l.
  apply scan_u; first [reflexivity|apply isHex_hexdigit].
Qed.

Lemma rune_size_high c r k :
  json.rune_size (String c r) = S k → high_bytes k r.
Proof.
  assert (Hr : ∀ lo hi x, (0x80 <= lo)%N → json.in_range lo hi x = true →
                          (0x80 <=? byteval x)%N = true).
  { intros lo hi x Hlo Hx. unfold json.in_range in Hx.
    apply andb_prop in Hx as [Hx _]. apply N.leb_le in Hx. apply N.leb_le. lia. }
  unfold json.rune_size. destruct r as [|c1 r]; [done|].
  destruct (json.in_range 0xC2 0xDF c).
  { destruct (json.in_range 0x80 0xBF c1) eqn:H1; [|done].
    intros [= <-]. simpl. split; [|done]. by eapply (Hr 0x80%N). }
  set (second := if (byteval c =? 0xE0)%N then _ else _).
  assert (Hsec : second = true → (0x80 <=? byteval c1)%N = true).
  { subst second.
    repeat (match goal with
            | |- context [if ?b then _ else _] => destruct b
            end); apply Hr; lia. }
  destruct (json.in_range 0xE0 0xEF c).
  { destruct r as [|c2 r]; [done|].
    destruct second eqn:Hs; [|done]. simpl.
    destruct (json.in_range 0x80 0xBF c2) eqn:H2; [|done].
    intros [= <-]. simpl. split; [by apply Hsec|]. split; [|done].
    by eapply (Hr 0x80%N). }
  destruct (json.in_range 0xF0 0xF4 c); [|done].
  destruct r as [|c2 [|c3 r]]; try done.
  destruct second eqn:Hs; [|done]. simpl.
  destruct (json.in_range 0x80 0xBF c2) eqn:H2; [|done]. simpl.
  destruct (json.in_range 0x80 0xBF c3) eqn:H3; [|done].
  intros [= <-]. simpl. split; [by apply Hsec|]. split; [by eapply (Hr 0x80%N)|].
  split; [|done]. by eapply (Hr 0x80%N).
Qed.

Lemma scan_appendString_go m s t :
  carry_ok m s →
  scan_all inString (json.appendString_go m s +:+ t) = scan_all inString t.
Proof.
  revert m. induction s as [|c r IH]; intros m Hok; [done|].
  assert (Hscan : scan_all inString (json.appendString_go json.Scan (String c r) +:+ t)
                  = scan_all inString t).
  { cbn [json.appendString_go].
    destruct (byteval c <? 0x80)%N eqn:Hascii.
    - destruct (json.htmlSafe c) eqn:Hsafe.
      + rewrite app_cons, scan_safe by done. by apply IH.
      + rewrite app_assoc, scan_escape_ascii by done. by apply IH.
    - assert (Hhigh : (0x80 <=? byteval c)%N = true).
      { apply N.leb_le. apply N.ltb_ge in Hascii. lia. }
      destruct (json.rune_size (String c r)) as [|k] eqn:Hsize.
      + rewrite app_assoc, !app_cons, app_nil_l.
        rewrite scan_u by reflexivity. by apply IH.
      + pose proof (rune_size_high c r k Hsize) as Hk.
        assert (Hcopy : scan_all inString
                          (String c (json.appendString_go (json.Copy k) r) +:+ t)
                        = scan_all inString t).
        { rewrite app_cons, scan_high by done. by apply IH. }
        destruct r as [|c1 [|c2 r']]; try exact Hcopy.
        destruct ((byteval c =? 0xE2)%N && (byteval c1 =? 0x80)%N &&
                  ((byteval c2 =? 0xA8)%N || (byteval c2 =? 0xA9)%N)); [|exact Hcopy].
        rewrite !app_assoc, !app_cons, !app_nil_l.
        rewrite scan_u by first [reflexivity|apply isHex_hexdigit].
        by apply IH. }
  destruct m as [|[|k]|[|k]]; try exact Hscan.
  - cbn [json.appendString_go]. destruct Hok as [Hc Hok].
    rewrite app_cons, scan_high by done. by apply IH.
  - cbn [json.appendString_go]. by apply IH.
Qed.

(** X24. Whatever the payload, the quoted text [setData] falls back on is one
    well-formed JSON value, which the encoder's check of a raw message
    accepts; so does everything [setData] returns for a payload that is
    not object-shaped. *)
Theorem setData_quoted_is_json data (osc : bool) :
  json.Valid (json.appendString data) = true ∧
  (looksLikeObject data = false → json.Valid (setData data osc).1 = true).
Proof.
  assert (Hv : json.Valid (json.appendString data) = true).
  { rewrite Valid_scan. unfold json.appendString. rewrite app_cons.
    cbn [scan_all]. change (json.scan_step json.newScanner "034"%char)
      with (json.scanBeginLiteral, inString). cbv iota beta.
    by rewrite scan_appendString_go. }
  split; [exact Hv|]. intros Hl. by rewrite setData_quotes_plain_text.
Qed.
